(** * Alerts provider (toasts + confirm modal) of the TacheUnie front end

    The repository carries two copies of [AlertsProvider]: the provider of
    [src/unnamed/part_000] and the one of [src/App.tsx]
    ([src/unnamed/part_001]).  They are the same code up to the default
    toast timeout ([payload.timeout ?? 4000] against
    [payload.timeout ?? 3000]), so the embedding is written once, in a
    section over the variant.

    The React state of the provider ([toasts], [confirmModal]) becomes an
    explicit state record.  The two platform services the provider calls
    are part of the record as well: the timers registered with
    [setTimeout] and the promises created with [new Promise].  State
    updaters ([setToasts (s => ...)], [setConfirmModal v]) are applied in
    the order in which they are issued, which is what React guarantees for
    functional updaters. *)

From Stdlib Require Import ZArith Lia.
From stdpp Require Import base option strings list sorting gmap.

(** ** Data model *)

(** [type ToastType = "success" | "error" | "info" | "warning"] *)
Inductive ToastType : Type :=
  | success
  | error
  | info
  | warning.

(** [timeout?: number | null]: the field is omitted ([undefined]), [null],
    or a number of milliseconds. *)
Inductive Timeout : Type :=
  | TimeoutOmitted
  | TimeoutNull
  | TimeoutMs (ms : Z).

(** [Omit<ToastItem, "id">], the argument of [showToast]. *)
Record ToastPayload : Type := mkToastPayload {
  payload_type : option ToastType;
  payload_title : option string;
  payload_message : string;
  payload_timeout : Timeout
}.

(** [type ToastItem] *)
Record ToastItem : Type := mkToastItem {
  toast_id : string;
  toast_type : option ToastType;
  toast_title : option string;
  toast_message : string;
  toast_timeout : Timeout
}.

(** The argument of [confirm]. *)
Record ConfirmOpts : Type := mkConfirmOpts {
  opts_title : option string;
  opts_message : string;
  opts_okLabel : option string;
  opts_cancelLabel : option string
}.

(** [type ConfirmPayload].  The [resolve] field is a closure over the
    [resolve] function of one promise; it is represented by the handle of
    that promise, and its body is [payload_resolve] below. *)
Record ConfirmPayload : Type := mkConfirmPayload {
  confirm_id : string;
  confirm_title : option string;
  confirm_message : string;
  confirm_okLabel : option string;
  confirm_cancelLabel : option string;
  confirm_resolve : nat
}.

(** A timer registered by [setTimeout(cb, t)].  The only callback the
    provider registers is [() => setToasts((s) => s.filter((x) => x.id !== id))],
    so the callback is represented by the captured [id]. *)
Record Timer : Type := mkTimer {
  timer_delay : Z;
  timer_due : Z;
  timer_target : string
}.

(** The state: the two [useState] cells, the platform's timer table, the
    promise store (a pending promise is [None], a settled one [Some v]),
    the trace of the calls made to promise resolvers, and the clock (ms). *)
Record AlertsState : Type := mkAlertsState {
  toasts : list ToastItem;
  confirmModal : option ConfirmPayload;
  timers : list Timer;
  promises : list (option bool);
  resolveCalls : list (nat * bool);
  now : Z
}.

#[global] Instance ToastType_eq_dec : EqDecision ToastType.
Proof. solve_decision. Defined.
#[global] Instance Timeout_eq_dec : EqDecision Timeout.
Proof. solve_decision. Defined.
#[global] Instance ToastItem_eq_dec : EqDecision ToastItem.
Proof. solve_decision. Defined.
#[global] Instance Timer_eq_dec : EqDecision Timer.
Proof. solve_decision. Defined.

(** The two copies of the provider. *)
Record Variant : Type := mkVariant { defaultTimeout : Z }.

(** [src/unnamed/part_000]: [payload.timeout ?? 4000] *)
Definition part_000 : Variant := {| defaultTimeout := 4000 |}.
(** [src/App.tsx] ([src/unnamed/part_001]): [payload.timeout ?? 3000] *)
Definition part_001 : Variant := {| defaultTimeout := 3000 |}.

(** [useState<ToastItem[]>([])], [useState<ConfirmPayload | null>(null)];
    no timer, no promise, clock at its origin. *)
Definition initialState : AlertsState :=
  {| toasts := []; confirmModal := None; timers := []; promises := [];
     resolveCalls := []; now := 0 |}.

(** ** State updaters and platform services *)

Definition setToasts (f : list ToastItem → list ToastItem)
    (st : AlertsState) : AlertsState :=
  {| toasts := f (toasts st); confirmModal := confirmModal st;
     timers := timers st; promises := promises st;
     resolveCalls := resolveCalls st; now := now st |}.

Definition setConfirmModal (m : option ConfirmPayload)
    (st : AlertsState) : AlertsState :=
  {| toasts := toasts st; confirmModal := m;
     timers := timers st; promises := promises st;
     resolveCalls := resolveCalls st; now := now st |}.

(** [setTimeout(cb, t)]: the callback is due [t] ms from now; the platform
    treats a negative delay as 0.  The platform keeps a delay as a signed
    32-bit integer; the delay is taken here as it is given, which is the
    same for a whole number in that range. *)
Definition setTimeout (target : string) (t : Z)
    (st : AlertsState) : AlertsState :=
  {| toasts := toasts st; confirmModal := confirmModal st;
     timers := timers st ++
       [{| timer_delay := t; timer_due := now st + Z.max 0 t;
           timer_target := target |}];
     promises := promises st;
     resolveCalls := resolveCalls st; now := now st |}.

(** [new Promise((resolve) => ...)]: a fresh pending promise; its handle is
    the next free index of the store. *)
Definition newPromise (st : AlertsState) : nat * AlertsState :=
  (length (promises st),
   {| toasts := toasts st; confirmModal := confirmModal st;
      timers := timers st; promises := promises st ++ [None];
      resolveCalls := resolveCalls st; now := now st |}).

(** A call [resolve(v)] of the resolver of promise [p]: the call is
    recorded; it settles the promise if it is pending and has no effect on
    a promise that is settled already. *)
Definition promiseResolve (p : nat) (v : bool)
    (st : AlertsState) : AlertsState :=
  {| toasts := toasts st; confirmModal := confirmModal st;
     timers := timers st;
     promises :=
       match promises st !! p with
       | Some None => <[p := Some v]> (promises st)
       | _ => promises st
       end;
     resolveCalls := resolveCalls st ++ [(p, v)]; now := now st |}.

(** [a ?? b] on a timeout that is not [null]. *)
Definition nullish (tm : Timeout) (d : Z) : Z :=
  match tm with
  | TimeoutMs ms => ms
  | _ => d
  end.

(** [opts.okLabel ?? "OK"] *)
Definition orLabel (o : option string) (d : string) : string :=
  match o with
  | Some s => s
  | None => d
  end.

(** ** The provider *)

Section Provider.

Variable V : Variant.

(** [{ id, ...payload }] *)
Definition mkItem (gid : string) (payload : ToastPayload) : ToastItem :=
  {| toast_id := gid;
     toast_type := payload_type payload;
     toast_title := payload_title payload;
     toast_message := payload_message payload;
     toast_timeout := payload_timeout payload |}.

(** [showToast].  [gid] is the outcome of
    [Math.random().toString(36).slice(2, 9)]. *)
Definition showToast (gid : string) (payload : ToastPayload)
    (st : AlertsState) : string * AlertsState :=
  let item := mkItem gid payload in
  let st1 := setToasts (λ s, item :: s) st in
  let st2 :=
    match payload_timeout payload with
    | TimeoutNull => st1
    | tm => let t := nullish tm (defaultTimeout V) in setTimeout gid t st1
    end in
  (gid, st2).

(** [hideToast] *)
Definition hideToast (id : string) (st : AlertsState) : AlertsState :=
  setToasts (λ s, filter (λ t, toast_id t ≠ id) s) st.

(** The callback registered by [showToast]:
    [() => setToasts((s) => s.filter((x) => x.id !== id))]. *)
Definition timerCallback (id : string) (st : AlertsState) : AlertsState :=
  setToasts (λ s, filter (λ x, toast_id x ≠ id) s) st.

(** The [resolve] field of a [ConfirmPayload]:
    [(v) => { resolve(v); setConfirmModal(null); }] *)
Definition payload_resolve (c : ConfirmPayload) (v : bool)
    (st : AlertsState) : AlertsState :=
  setConfirmModal None (promiseResolve (confirm_resolve c) v st).

(** [confirm].  [gid] is the generated id; the result is the handle of the
    promise that is returned. *)
Definition confirm (gid : string) (opts : ConfirmOpts)
    (st : AlertsState) : nat * AlertsState :=
  let '(p, st1) := newPromise st in
  (p, setConfirmModal
        (Some {| confirm_id := gid;
                 confirm_title := opts_title opts;
                 confirm_message := opts_message opts;
                 confirm_okLabel := Some (orLabel (opts_okLabel opts) "OK");
                 confirm_cancelLabel :=
                   Some (orLabel (opts_cancelLabel opts) "Annuler");
                 confirm_resolve := p |}) st1).

(** The two buttons of the modal, [onClick={() => confirmModal.resolve(v)}]
    with [v = false] for cancel and [v = true] for ok.  The modal is
    rendered only when [confirmModal] is not [null]. *)
Definition clickConfirmButton (v : bool) (st : AlertsState) : AlertsState :=
  match confirmModal st with
  | Some c => payload_resolve c v st
  | None => st
  end.

(** ** The event loop *)

(** The platform advances the clock and runs the callback of a timer once,
    when it is due; a timer that has run is gone. *)
Definition tick (dt : N) (st : AlertsState) : AlertsState :=
  {| toasts := toasts st; confirmModal := confirmModal st;
     timers := timers st; promises := promises st;
     resolveCalls := resolveCalls st; now := now st + Z.of_N dt |}.

Definition dropTimer (i : nat) (st : AlertsState) : AlertsState :=
  {| toasts := toasts st; confirmModal := confirmModal st;
     timers := delete i (timers st); promises := promises st;
     resolveCalls := resolveCalls st; now := now st |}.

Definition fireTimer (i : nat) (st : AlertsState) : AlertsState :=
  match timers st !! i with
  | Some tm =>
      if decide (timer_due tm ≤ now st)%Z
      then timerCallback (timer_target tm) (dropTimer i st)
      else st
  | None => st
  end.

Inductive Event : Type :=
  | EvShowToast (gid : string) (payload : ToastPayload)
  | EvHideToast (id : string)
  | EvConfirm (gid : string) (opts : ConfirmOpts)
  | EvClick (v : bool)
  | EvTick (dt : N)
  | EvFire (i : nat).

Definition step (ev : Event) (st : AlertsState) : AlertsState :=
  match ev with
  | EvShowToast gid payload => (showToast gid payload st).2
  | EvHideToast id => hideToast id st
  | EvConfirm gid opts => (confirm gid opts st).2
  | EvClick v => clickConfirmButton v st
  | EvTick dt => tick dt st
  | EvFire i => fireTimer i st
  end.

Fixpoint run (evs : list Event) (st : AlertsState) : AlertsState :=
  match evs with
  | [] => st
  | ev :: evs' => run evs' (step ev st)
  end.

End Provider.

(** ** Observations used by the statements *)

(** The ids of the registry, in display order. *)
Definition toastIds (st : AlertsState) : list string :=
  toast_id <$> toasts st.

(** The items created by the [showToast] calls of a trace, in call order. *)
Fixpoint posted (evs : list Event) : list ToastItem :=
  match evs with
  | [] => []
  | EvShowToast gid payload :: evs' => mkItem gid payload :: posted evs'
  | _ :: evs' => posted evs'
  end.

(** An event that removes toasts: a [hideToast] call or a timer callback. *)
Definition dismissal (ev : Event) : bool :=
  match ev with
  | EvHideToast _ | EvFire _ => true
  | _ => false
  end.

(** An event in which a call site uses the id [id]: a [showToast] call
    whose generated id is [id], or a [hideToast id] call. *)
Definition usesId (id : string) (ev : Event) : bool :=
  match ev with
  | EvShowToast gid _ => bool_decide (gid = id)
  | EvHideToast id' => bool_decide (id' = id)
  | _ => false
  end.

(** A [showToast] call whose generated id is [id]. *)
Definition postsId (id : string) (ev : Event) : bool :=
  match ev with
  | EvShowToast gid _ => bool_decide (gid = id)
  | _ => false
  end.

(** Every [showToast] call of the trace generates an id that no toast of
    the registry carries at the time of the call. *)
Fixpoint freshIds (V : Variant) (evs : list Event) (st : AlertsState) : Prop :=
  match evs with
  | [] => True
  | ev :: evs' =>
      match ev with
      | EvShowToast gid _ => gid ∉ toastIds st
      | _ => True
      end ∧ freshIds V evs' (step V ev st)
  end.

(** The calls made so far to the resolver of promise [p]. *)
Definition callsFor (p : nat) (st : AlertsState) : list (nat * bool) :=
  filter (λ e, e.1 = p) (resolveCalls st).

(** The resolver of promise [p] is held by the broker: it is the [resolve]
    of the request in the pending slot, the only place of the state that
    holds a resolver. *)
Definition resolverHeld (p : nat) (st : AlertsState) : Prop :=
  confirm_resolve <$> confirmModal st = Some p.

(** No timer aimed at [id] is due before [T]. *)
Definition timersAfter (id : string) (T : Z) (st : AlertsState) : Prop :=
  ∀ tm, tm ∈ timers st → timer_target tm = id → (T ≤ timer_due tm)%Z.

(** The invariant of the broker: a resolver that was called belongs to a
    promise of the store, a pending promise has had no call to its
    resolver, a settled one exactly the call that settled it, and the
    request of the pending slot holds the resolver of a pending promise. *)
Record brokerInv (st : AlertsState) : Prop := mkBrokerInv {
  inv_alloc : ∀ p v, (p, v) ∈ resolveCalls st → p < length (promises st);
  inv_pending : ∀ p, promises st !! p = Some None → callsFor p st = [];
  inv_settled : ∀ p v,
    promises st !! p = Some (Some v) → callsFor p st = [(p, v)];
  inv_slot : ∀ c,
    confirmModal st = Some c → promises st !! confirm_resolve c = Some None
}.

(** ** Task helpers of [src/App.tsx] *)

(** A JavaScript number that is a time value: whole milliseconds, or
    [NaN] (the time value of an invalid date). *)
Inductive JSNumber : Type :=
  | NaN
  | Num (z : Z).

(** Truthiness of a string that may be [null] or [undefined]. *)
Definition truthyString (o : option string) : bool :=
  match o with
  | Some s => negb (String.eqb s "")
  | None => false
  end.

(** Truthiness of a number that may be [null]: [null], [NaN] and [0] are
    falsy. *)
Definition truthyNumber (n : option JSNumber) : bool :=
  match n with
  | Some (Num z) => negb (z =? 0)%Z
  | _ => false
  end.

(** [ToNumber] on a number that may be [null]. *)
Definition toNumber (n : option JSNumber) : JSNumber :=
  match n with
  | Some x => x
  | None => Num 0
  end.

(** [a < b] and [a >= b] on numbers; a comparison with [NaN] is false. *)
Definition jsLt (a b : JSNumber) : bool :=
  match a, b with
  | Num x, Num y => (x <? y)%Z
  | _, _ => false
  end.

Definition jsGe (a b : JSNumber) : bool :=
  match a, b with
  | Num x, Num y => (y <=? x)%Z
  | _, _ => false
  end.

(** [a - b] *)
Definition jsSub (a b : JSNumber) : JSNumber :=
  match a, b with
  | Num x, Num y => Num (x - y)
  | _, _ => NaN
  end.

(** The three results of [computeStatusFromDates]. *)
Inductive TaskStatus : Type :=
  | EnAttente
  | EnCours
  | Terminee.

Definition statusLabel (s : TaskStatus) : string :=
  match s with
  | EnAttente => "En attente"
  | EnCours => "En cours"
  | Terminee => "Terminée"
  end.

(** The order in which a task goes through its statuses. *)
Definition statusRank (s : TaskStatus) : nat :=
  match s with
  | EnAttente => 0
  | EnCours => 1
  | Terminee => 2
  end.

#[global] Instance JSNumber_eq_dec : EqDecision JSNumber.
Proof. solve_decision. Defined.
#[global] Instance TaskStatus_eq_dec : EqDecision TaskStatus.
Proof. solve_decision. Defined.

Section Dates.

(** [new Date(x).getTime()] on a string; what a string parses to is up to
    the platform. *)
Variable getTime : string → JSNumber.

(** [x ? new Date(x).getTime() : null] *)
Definition timeOrNull (x : option string) : option JSNumber :=
  match x with
  | Some s => if truthyString x then Some (getTime s) else None
  | None => None
  end.

(** [computeStatusFromDates]; [now] is the value of [Date.now()]. *)
Definition computeStatusFromDates (now : Z) (start end_ : option string)
    : TaskStatus :=
  if negb (truthyString start) && negb (truthyString end_) then EnAttente
  else
    let s := timeOrNull start in
    let e := timeOrNull end_ in
    if truthyNumber s && jsLt (Num now) (toNumber s) then EnAttente
    else if truthyNumber e && jsGe (Num now) (toNumber e) then Terminee
    else if truthyNumber s && truthyNumber e && jsGe (Num now) (toNumber s)
            && jsLt (Num now) (toNumber e) then EnCours
    else if truthyNumber s && negb (truthyNumber e)
            && jsGe (Num now) (toNumber s) then EnCours
    else if negb (truthyNumber s) && truthyNumber e
            && jsLt (Num now) (toNumber e) then EnCours
    else EnAttente.

(** [validateNotPastLocal] of [PersonalTasksBlock] and
    [validateDateNotPastLocal] of [GroupPage], which have the same body. *)
Definition validateNotPastLocal (now : Z) (localValue : option string)
    : bool :=
  match localValue with
  | Some s =>
      if negb (truthyString localValue) then true
      else jsGe (getTime s) (Num now)
  | None => true
  end.

(** What the three guards at the head of [addTask] decide: the toast that
    is shown when the handler returns early. *)
Definition addTaskGuard (now : Z) (title startDate endDate : string)
    : option ToastPayload :=
  if negb (truthyString (Some title)) then
    Some {| payload_type := Some info; payload_title := None;
            payload_message := "Titre requis";
            payload_timeout := TimeoutOmitted |}
  else if truthyString (Some startDate)
          && negb (validateNotPastLocal now (Some startDate)) then
    Some {| payload_type := Some error; payload_title := None;
            payload_message :=
              "La date/heure de début ne peut pas être passée";
            payload_timeout := TimeoutOmitted |}
  else if truthyString (Some endDate) && truthyString (Some startDate)
          && jsLt (getTime endDate) (getTime startDate) then
    Some {| payload_type := Some error; payload_title := None;
            payload_message :=
              "La date/heure de fin doit être après la date de début";
            payload_timeout := TimeoutOmitted |}
  else None.

End Dates.

(** ** [sortByCreatedDesc] *)

Section Sorting.

Variable getTime : string → JSNumber.

(** The element type, [T extends { createdAt?: string; created_at?: string }]. *)
Variable T : Type.
Variable createdAt : T → option string.
Variable created_at : T → option string.

(** [new Date(a.createdAt ?? a.created_at ?? 0).getTime()]; the time value
    of [new Date(0)] is 0. *)
Definition createdTime (a : T) : JSNumber :=
  match createdAt a with
  | Some s => getTime s
  | None =>
      match created_at a with
      | Some s => getTime s
      | None => Num 0
      end
  end.

(** The comparator, [(a, b) => tb - ta]. *)
Definition compareCreated (a b : T) : JSNumber :=
  jsSub (createdTime b) (createdTime a).

(** [Array.prototype.sort(cmp)].  The language fixes the result for a
    consistent comparator: the elements in ascending order of [cmp], equal
    ones in their original order.  A comparator result [NaN] counts as 0.
    [a] goes before [b] when [cmp(a, b) < 0]. *)
Definition goesBefore (cmp : T → T → JSNumber) (a b : T) : bool :=
  jsLt (cmp a b) (Num 0).

Fixpoint insertSorted (cmp : T → T → JSNumber) (x : T) (l : list T)
    : list T :=
  match l with
  | [] => [x]
  | y :: l' =>
      if goesBefore cmp y x then y :: insertSorted cmp x l'
      else x :: y :: l'
  end.

Definition arraySort (cmp : T → T → JSNumber) (l : list T) : list T :=
  foldr (insertSorted cmp) [] l.

(** [sortByCreatedDesc]: [(arr || []).slice().sort(...)]. *)
Definition sortByCreatedDesc (arr : option (list T)) : list T :=
  arraySort compareCreated (default [] arr).

(** The time value of an element whose date parses. *)
Definition stamp (a : T) : Z :=
  match createdTime a with
  | Num z => z
  | NaN => 0
  end.

Definition datesParse (l : list T) : Prop :=
  Forall (λ a, createdTime a ≠ NaN) l.

(** [a] is not older than [b]. *)
Definition newestFirst (a b : T) : Prop := (stamp b ≤ stamp a)%Z.

End Sorting.

(** ** [src/lib/api.ts] *)

(** The part of an axios request configuration that the interceptor
    reads and writes. *)
Record RequestConfig : Type := mkRequestConfig {
  config_url : string;
  config_headers : option (gmap string string)
}.

(** What the handlers read of a rejected request: [err?.response?.status]
    and [err?.response?.data?.message]. *)
Record AxiosError : Type := mkAxiosError {
  err_status : option Z;
  err_message : option string
}.

(** The request interceptor; [storage] is [localStorage]. *)
Definition requestInterceptor (storage : gmap string string)
    (config : RequestConfig) : RequestConfig :=
  let token := storage !! "token" in
  if truthyString token then
    {| config_url := config_url config;
       config_headers :=
         Some (<["Authorization" := "Bearer " +:+ default "" token]>
                 (default ∅ (config_headers config))) |}
  else config.

(** The error handler of the response interceptor; the result is the
    storage it leaves and the reason of the rejected promise it returns. *)
Definition responseErrorInterceptor (err : AxiosError)
    (storage : gmap string string) : gmap string string * AxiosError :=
  (if decide (err_status err = Some 401%Z)
   then delete "token" storage else storage,
   err).

(** ** Deleting a task ([deleteTask] of [GroupPage] in [src/App.tsx]) *)

(** The fields of a task that the handlers read. *)
Record Task : Type := mkTask {
  task__id : option string;
  task_id : option string;
  task_title : string;
  task_createdAt : option string;
  task_created_at : option string
}.

(** [String(t._id || t.id)] *)
Definition taskKey (t : Task) : string :=
  if truthyString (task__id t) then default "" (task__id t)
  else match task_id t with
       | Some s => s
       | None => "undefined"
       end.

(** The outcome of an awaited request. *)
Inductive ApiOutcome : Type :=
  | ApiOk
  | ApiFail (err : AxiosError).

(** [err?.response?.data?.message || fallback] *)
Definition messageOr (err : AxiosError) (fallback : string) : string :=
  if truthyString (err_message err) then default "" (err_message err)
  else fallback.

(** The page: its task list, the alerts provider it uses, and the
    [api.delete] calls it has made. *)
Record TasksPage : Type := mkTasksPage {
  page_tasks : list Task;
  page_alerts : AlertsState;
  page_deletes : list string
}.

Definition deleteTaskOpts : ConfirmOpts :=
  {| opts_title := None; opts_message := "Supprimer cette tâche ?";
     opts_okLabel := Some "Supprimer"; opts_cancelLabel := Some "Annuler" |}.

Section DeleteTask.

Variable V : Variant.

(** [deleteTask] up to its first [await]: the call to [alerts.confirm]. *)
Definition deleteTask_begin (gid : string) (pg : TasksPage)
    : nat * TasksPage :=
  let '(p, st) := confirm gid deleteTaskOpts (page_alerts pg) in
  (p, {| page_tasks := page_tasks pg; page_alerts := st;
         page_deletes := page_deletes pg |}).

(** [deleteTask] from the value [ok] of the awaited confirmation on;
    [res] is the outcome of the request and [gid] the id generated for the
    toast. *)
Definition deleteTask_resume (idTask : string) (ok : bool)
    (res : ApiOutcome) (gid : string) (pg : TasksPage) : TasksPage :=
  if negb ok then pg
  else
    let sent := page_deletes pg ++ ["/tasks/" +:+ idTask] in
    match res with
    | ApiOk =>
        {| page_tasks := filter (λ t, taskKey t ≠ idTask) (page_tasks pg);
           page_alerts :=
             (showToast V gid
                {| payload_type := Some success; payload_title := None;
                   payload_message := "Tâche supprimée";
                   payload_timeout := TimeoutOmitted |}
                (page_alerts pg)).2;
           page_deletes := sent |}
    | ApiFail err =>
        {| page_tasks := page_tasks pg;
           page_alerts :=
             (showToast V gid
                {| payload_type := Some error; payload_title := None;
                   payload_message := messageOr err "Erreur suppression";
                   payload_timeout := TimeoutOmitted |}
                (page_alerts pg)).2;
           page_deletes := sent |}
    end.

(** The handler after the user's click on a button of the modal: it
    resumes with the value of its promise, and it stays suspended as long
    as the promise is pending. *)
Definition deleteTask_afterClick (p : nat) (idTask : string) (v : bool)
    (res : ApiOutcome) (gid : string) (pg : TasksPage) : option TasksPage :=
  let st := clickConfirmButton v (page_alerts pg) in
  let pg' := {| page_tasks := page_tasks pg; page_alerts := st;
                page_deletes := page_deletes pg |} in
  match promises st !! p with
  | Some (Some ok) => Some (deleteTask_resume idTask ok res gid pg')
  | _ => None
  end.

End DeleteTask.

(** The toast of [Login] after a successful login, in [src/App.tsx]. *)
Definition welcomePayload : ToastPayload :=
  {| payload_type := Some success; payload_title := Some "Connecté";
     payload_message := "Bienvenue !"; payload_timeout := TimeoutMs 2000 |}.

(** ** Routes, login and logout of [src/App.tsx] *)

(** The four route patterns of [App]: ["/"], ["/register"],
    ["/dashboard"] and ["/groups/:id"]. *)
Inductive Path : Type :=
  | PathHome
  | PathRegister
  | PathDashboard
  | PathGroup (id : string).

(** What a route renders: one of the pages, or [<Navigate to=... replace />]. *)
Inductive Element : Type :=
  | LoginPage
  | RegisterPage
  | DashboardPage
  | GroupPageOf (id : string)
  | Navigate (to : Path).

(** [PrivateRoute] *)
Definition PrivateRoute (storage : gmap string string) (children : Element)
    : Element :=
  let token := storage !! "token" in
  if negb (truthyString token) then Navigate PathHome else children.

(** The [element] of each [Route] of [App]. *)
Definition routeElement (storage : gmap string string) (path : Path)
    : Element :=
  match path with
  | PathHome =>
      if truthyString (storage !! "token") then Navigate PathDashboard
      else LoginPage
  | PathRegister =>
      if truthyString (storage !! "token") then Navigate PathDashboard
      else RegisterPage
  | PathDashboard => PrivateRoute storage DashboardPage
  | PathGroup id => PrivateRoute storage (GroupPageOf id)
  end.

(** Rendering a path, following at most [fuel] redirections. *)
Fixpoint renderPath (fuel : nat) (storage : gmap string string)
    (path : Path) : option Element :=
  match routeElement storage path with
  | Navigate to =>
      match fuel with
      | 0 => None
      | S fuel' => renderPath fuel' storage to
      end
  | el => Some el
  end.

(** What the handlers share of the client: [localStorage] and
    [api.defaults.headers.common]. *)
Record Session : Type := mkSession {
  session_storage : gmap string string;
  session_common : option (gmap string string)
}.

(** The outcome of [api.post("/auth/login", ...)]: the [token] and the
    [accessToken] of [res.data], or an error. *)
Inductive LoginResponse : Type :=
  | LoginOk (token accessToken : option string)
  | LoginFail (err : AxiosError).

(** What [submit] of [Login] leaves: the session, the toast it shows and
    the path it navigates to, if any. *)
Record LoginResult : Type := mkLoginResult {
  login_session : Session;
  login_toast : ToastPayload;
  login_nav : option Path
}.

(** [a ?? b] on two values that may be [null] or [undefined]. *)
Definition nullishOr (a b : option string) : option string :=
  match a with
  | Some _ => a
  | None => b
  end.

(** [submit] of [Login], from the outcome of the request on.  A request
    that is rejected has gone through the error handler of the response
    interceptor of [src/lib/api.ts] before the [catch] block runs. *)
Definition loginSubmit (res : LoginResponse) (sess : Session) : LoginResult :=
  match res with
  | LoginOk tok accessTok =>
      let token := nullishOr tok accessTok in
      {| login_session :=
           if truthyString token then
             {| session_storage :=
                  <["token" := default "" token]> (session_storage sess);
                session_common :=
                  Some (<["Authorization" := "Bearer " +:+ default "" token]>
                          (default ∅ (session_common sess))) |}
           else sess;
         login_toast := welcomePayload;
         login_nav := Some PathDashboard |}
  | LoginFail err =>
      {| login_session :=
           {| session_storage :=
                (responseErrorInterceptor err (session_storage sess)).1;
              session_common := session_common sess |};
         login_toast :=
           {| payload_type := Some error; payload_title := Some "Erreur";
              payload_message := messageOr err "Impossible de se connecter";
              payload_timeout := TimeoutMs 4000 |};
         login_nav := None |}
  end.

(** [handleLogout] of [App] and [logout] of [Dashboard]:
    [localStorage.removeItem("token"); navigate("/")]. *)
Definition handleLogout (sess : Session) : Session * Path :=
  ({| session_storage := delete "token" (session_storage sess);
      session_common := session_common sess |},
   PathHome).

(** ** Kinds of events *)

(** The events of the broker, and the others, which are the events of the
    toast registry and of the clock. *)
Definition brokerEvent (ev : Event) : bool :=
  match ev with
  | EvConfirm _ _ | EvClick _ => true
  | _ => false
  end.

(** A state with the broker's cells replaced. *)
Definition withBroker (m : option ConfirmPayload) (ps : list (option bool))
    (rc : list (nat * bool)) (st : AlertsState) : AlertsState :=
  {| toasts := toasts st; confirmModal := m; timers := timers st;
     promises := ps; resolveCalls := rc; now := now st |}.

(** A state with the cells of the registry, the timer table and the
    clock replaced. *)
Definition withRegistry (ts : list ToastItem) (tms : list Timer) (t : Z)
    (st : AlertsState) : AlertsState :=
  {| toasts := ts; confirmModal := confirmModal st; timers := tms;
     promises := promises st; resolveCalls := resolveCalls st; now := t |}.

(** ** Sample data *)

Definition sampleTime (s : string) : JSNumber :=
  if String.eqb s "" then NaN else Num (Z.of_nat (String.length s)).

Definition sampleTask (key : string) (created : string) : Task :=
  {| task__id := Some key; task_id := None; task_title := key;
     task_createdAt := Some created; task_created_at := None |}.

(** ** Sample runs *)

Definition samplePayload : ToastPayload :=
  {| payload_type := Some success; payload_title := None;
     payload_message := "Tâche ajoutée"; payload_timeout := TimeoutOmitted |}.

Definition stickyPayload : ToastPayload :=
  {| payload_type := Some info; payload_title := None;
     payload_message := "Titre requis"; payload_timeout := TimeoutNull |}.

Definition sampleOpts : ConfirmOpts :=
  {| opts_title := None; opts_message := "Supprimer cette tâche ?";
     opts_okLabel := Some "Supprimer"; opts_cancelLabel := None |}.

Example showToast_sample :
  showToast part_000 "k3x9a1b" samplePayload initialState =
  ("k3x9a1b",
   {| toasts := [mkItem "k3x9a1b" samplePayload]; confirmModal := None;
      timers := [{| timer_delay := 4000; timer_due := 4000;
                    timer_target := "k3x9a1b" |}];
      promises := []; resolveCalls := []; now := 0 |}).
Proof. reflexivity. Qed.

Example showToast_sample_app :
  timers (showToast part_001 "k3x9a1b" samplePayload initialState).2 =
  [{| timer_delay := 3000; timer_due := 3000; timer_target := "k3x9a1b" |}].
Proof. reflexivity. Qed.

Example confirm_then_ok :
  let '(p, st1) := confirm "q7" sampleOpts initialState in
  let st2 := clickConfirmButton true st1 in
  p = 0 ∧ promises st2 = [Some true] ∧ confirmModal st2 = None ∧
  (confirm_okLabel <$> confirmModal st1) = Some (Some "Supprimer") ∧
  (confirm_cancelLabel <$> confirmModal st1) = Some (Some "Annuler").
Proof. vm_compute. repeat split. Qed.

Example run_sample :
  toastIds (run part_000
    [EvShowToast "a" samplePayload; EvShowToast "b" stickyPayload;
     EvTick 4000; EvFire 0] initialState) = ["b"].
Proof. vm_compute. reflexivity. Qed.

(** ** Basic facts about the operations *)

Section Facts.

Variable V : Variant.

Lemma showToast_toasts gid payload st :
  toasts (showToast V gid payload st).2 = mkItem gid payload :: toasts st.
Proof. unfold showToast. by destruct (payload_timeout payload). Qed.

Lemma showToast_timers gid payload st :
  timers (showToast V gid payload st).2 =
  timers st ++
    match payload_timeout payload with
    | TimeoutNull => []
    | tm => [{| timer_delay := nullish tm (defaultTimeout V);
                timer_due := now st + Z.max 0 (nullish tm (defaultTimeout V));
                timer_target := gid |}]
    end.
Proof.
  unfold showToast.
  destruct (payload_timeout payload); simpl; by rewrite ?app_nil_r.
Qed.

Lemma showToast_now gid payload st :
  now (showToast V gid payload st).2 = now st.
Proof. unfold showToast. by destruct (payload_timeout payload). Qed.

Lemma showToast_broker gid payload st :
  confirmModal (showToast V gid payload st).2 = confirmModal st ∧
  promises (showToast V gid payload st).2 = promises st ∧
  resolveCalls (showToast V gid payload st).2 = resolveCalls st.
Proof. unfold showToast. by destruct (payload_timeout payload). Qed.

Lemma filter_other_id_absent id (l : list ToastItem) :
  id ∉ toast_id <$> l → filter (λ t, toast_id t ≠ id) l = l.
Proof.
  induction l as [|x l IH]; [done|].
  rewrite fmap_cons, not_elem_of_cons. intros [Hx Hl].
  rewrite filter_cons_True by congruence. by rewrite IH.
Qed.

Lemma filter_other_id_idemp id (l : list ToastItem) :
  filter (λ t, toast_id t ≠ id) (filter (λ t, toast_id t ≠ id) l) =
  filter (λ t, toast_id t ≠ id) l.
Proof.
  induction l as [|x l IH]; [done|].
  destruct (decide (toast_id x ≠ id)) as [Hx|Hx].
  - rewrite !filter_cons_True by done. by rewrite IH.
  - by rewrite filter_cons_False.
Qed.

Lemma filter_other_id_gone id (l : list ToastItem) :
  id ∉ toast_id <$> filter (λ t, toast_id t ≠ id) l.
Proof.
  rewrite list_elem_of_fmap. intros (x & -> & Hx).
  apply list_elem_of_filter in Hx as [Hx _]. by apply Hx.
Qed.

Lemma filter_other_id_keeps id (l : list ToastItem) x :
  x ∈ l → toast_id x ≠ id → x ∈ filter (λ t, toast_id t ≠ id) l.
Proof. intros. by apply list_elem_of_filter. Qed.

Lemma fireTimer_toasts i st :
  toasts (fireTimer i st) = toasts st ∨
  ∃ tm, timers st !! i = Some tm ∧ (timer_due tm ≤ now st)%Z ∧
        toasts (fireTimer i st) =
        filter (λ x, toast_id x ≠ timer_target tm) (toasts st).
Proof.
  unfold fireTimer. destruct (timers st !! i) as [tm|] eqn:E; [|by left].
  case_decide; [|by left]. right. by exists tm.
Qed.

Lemma fireTimer_timers i st tm :
  tm ∈ timers (fireTimer i st) → tm ∈ timers st.
Proof.
  unfold fireTimer. destruct (timers st !! i) as [tm'|] eqn:E; [|done].
  case_decide; [|done]. simpl. apply list_elem_of_delete_inv.
Qed.

End Facts.

(** ** The toast registry *)

Section Registry.

Variable V : Variant.

Lemma step_toasts_quiet ev st :
  dismissal ev = false →
  toasts (step V ev st) = posted [ev] ++ toasts st.
Proof.
  destruct ev as [gid payload|id|gid opts|v|dt|i]; simpl; try done; intros _.
  - apply showToast_toasts.
  - unfold clickConfirmButton. by destruct (confirmModal st).
Qed.

Lemma posted_cons ev evs : posted (ev :: evs) = posted [ev] ++ posted evs.
Proof. by destruct ev. Qed.

(** C3: without a dismissal in between, the registry lists the posted
    toasts in the reverse of the call order, in front of what it held
    before; one [showToast] call puts its item at the head and returns the
    id of that item. *)
Theorem showToast_reverse_call_order (evs : list Event) (st : AlertsState) :
  Forall (λ ev, dismissal ev = false) evs →
  toasts (run V evs st) = reverse (posted evs) ++ toasts st ∧
  ∀ gid payload st0,
    (showToast V gid payload st0).1 = gid ∧
    toasts (showToast V gid payload st0).2 = mkItem gid payload :: toasts st0 ∧
    toast_id (mkItem gid payload) = gid.
Proof.
  intros Hq. split.
  - revert st. induction Hq as [|ev evs Hev _ IH]; intros st; [done|].
    simpl run. rewrite IH, step_toasts_quiet by done.
    rewrite (posted_cons ev evs), reverse_app, <- app_assoc.
    f_equal. destruct ev; try done.
  - intros gid payload st0. split; [done|]. split; [|done].
    apply showToast_toasts.
Qed.

(** C6: [hideToast] is idempotent, and on an id that no toast of the
    registry carries it returns the state it was given. *)
Theorem hideToast_idempotent (id : string) (st : AlertsState) :
  hideToast id (hideToast id st) = hideToast id st ∧
  (id ∉ toastIds st → hideToast id st = st).
Proof.
  split.
  - unfold hideToast, setToasts. simpl. by rewrite filter_other_id_idemp.
  - intros Habs. destruct st as [ts m tms ps rc t].
    unfold hideToast, setToasts. simpl. f_equal.
    by apply filter_other_id_absent.
Qed.

(** C9: [showToast] returns on every input, with the generated id, and the
    state it leaves differs from the one it was given in two places only:
    the new item is at the head of the registry, and at most one timer,
    aimed at that id, was added to the timer table. *)
Theorem showToast_total (gid : string) (payload : ToastPayload)
    (st : AlertsState) :
  ∃ scheduled : list Timer,
    showToast V gid payload st =
      (gid, {| toasts := mkItem gid payload :: toasts st;
               confirmModal := confirmModal st;
               timers := timers st ++ scheduled;
               promises := promises st;
               resolveCalls := resolveCalls st;
               now := now st |}) ∧
    length scheduled ≤ 1 ∧
    Forall (λ tm, timer_target tm = gid) scheduled.
Proof.
  unfold showToast.
  destruct (payload_timeout payload) as [| |ms]; simpl.
  - eexists [_]. unfold setTimeout, setToasts. simpl.
    split; [reflexivity|]. split; [lia|]. by repeat constructor.
  - exists []. unfold setToasts. rewrite app_nil_r. by repeat constructor.
  - eexists [_]. unfold setTimeout, setToasts. simpl.
    split; [reflexivity|]. split; [lia|]. by repeat constructor.
Qed.

Lemma filter_other_id_split id (l : list ToastItem) :
  l ≡ₚ filter (λ t, toast_id t ≠ id) l ++ filter (λ t, toast_id t = id) l.
Proof.
  induction l as [|x l IH]; [done|].
  destruct (decide (toast_id x = id)) as [Hx|Hx].
  - rewrite filter_cons_False by (intros Hn; by apply Hn).
    rewrite filter_cons_True by done.
    rewrite <- Permutation_middle. by constructor.
  - rewrite filter_cons_True by done. rewrite filter_cons_False by done.
    simpl. by constructor.
Qed.

(** C10: [hideToast] touches the registry only, and there only the toasts
    with the given id: what stays is a subsequence of the registry (same
    items, same order), what goes is exactly the items with that id, and
    every item with another id stays.  The removal done by a timer that
    fires is the same, for the id the timer captured, and a timer that
    does not fire leaves the registry as it is. *)
Theorem hideToast_frame (id : string) (st : AlertsState) :
  (confirmModal (hideToast id st) = confirmModal st ∧
   timers (hideToast id st) = timers st ∧
   promises (hideToast id st) = promises st ∧
   resolveCalls (hideToast id st) = resolveCalls st ∧
   now (hideToast id st) = now st) ∧
  (toasts (hideToast id st) `sublist_of` toasts st ∧
   toasts st ≡ₚ
     toasts (hideToast id st) ++ filter (λ t, toast_id t = id) (toasts st) ∧
   ∀ x, x ∈ toasts st → toast_id x ≠ id → x ∈ toasts (hideToast id st)) ∧
  (toasts (timerCallback id st) `sublist_of` toasts st ∧
   toasts st ≡ₚ
     toasts (timerCallback id st) ++
     filter (λ t, toast_id t = id) (toasts st) ∧
   ∀ x, x ∈ toasts st → toast_id x ≠ id → x ∈ toasts (timerCallback id st)) ∧
  ∀ i, toasts (fireTimer i st) = toasts st ∨
       ∃ tm, timers st !! i = Some tm ∧
             toasts (fireTimer i st) = toasts (timerCallback (timer_target tm) st).
Proof.
  split; [done|]. split; [|split].
  - simpl. split; [apply sublist_filter|]. split.
    + apply filter_other_id_split.
    + intros x Hx Hne. by apply filter_other_id_keeps.
  - simpl. split; [apply sublist_filter|]. split.
    + apply filter_other_id_split.
    + intros x Hx Hne. by apply filter_other_id_keeps.
  - intros i. destruct (fireTimer_toasts i st) as [H|(tm & Htm & _ & H)].
    + by left.
    + right. by exists tm.
Qed.

End Registry.

Lemma showToast_reverse_call_order_witness :
  toasts (run part_000
    [EvShowToast "a" samplePayload; EvTick 10; EvShowToast "b" stickyPayload;
     EvConfirm "c" sampleOpts; EvShowToast "d" samplePayload] initialState) =
  [mkItem "d" samplePayload; mkItem "b" stickyPayload;
   mkItem "a" samplePayload].
Proof.
  refine (proj1 (showToast_reverse_call_order part_000
    [EvShowToast "a" samplePayload; EvTick 10; EvShowToast "b" stickyPayload;
     EvConfirm "c" sampleOpts; EvShowToast "d" samplePayload]
    initialState _)).
  repeat constructor.
Defined.

Lemma hideToast_idempotent_witness :
  let st := (showToast part_000 "a" samplePayload initialState).2 in
  ("zz" ∉ toastIds st) ∧ hideToast "zz" st = st.
Proof.
  assert (Habs : "zz" ∉
    toastIds (showToast part_000 "a" samplePayload initialState).2).
  { apply (bool_decide_unpack _). by vm_compute. }
  split; [exact Habs|].
  exact (proj2 (hideToast_idempotent "zz"
    (showToast part_000 "a" samplePayload initialState).2) Habs).
Defined.

(** ** Timers against dismissals *)

Section Expiry.

Variable V : Variant.

Lemma click_registry v st :
  toasts (clickConfirmButton v st) = toasts st ∧
  timers (clickConfirmButton v st) = timers st ∧
  now (clickConfirmButton v st) = now st.
Proof. unfold clickConfirmButton. by destruct (confirmModal st). Qed.

(** One event that does not use the id of an item keeps the item in the
    registry as long as no timer aimed at that id is due. *)
Lemma step_keeps_toast (x : ToastItem) (T : Z) ev st :
  usesId (toast_id x) ev = false →
  timersAfter (toast_id x) T st →
  ((now st < T)%Z → x ∈ toasts st) →
  timersAfter (toast_id x) T (step V ev st) ∧
  ((now (step V ev st) < T)%Z → x ∈ toasts (step V ev st)) .
Proof.
  intros Hev Htm Hin.
  destruct ev as [gid payload|id|gid opts|v|dt|i]; unfold step; simpl in Hev.
  - apply bool_decide_eq_false in Hev.
    rewrite showToast_now, showToast_toasts. split.
    + intros tm. rewrite showToast_timers, elem_of_app. intros [Hold|Hnew] Ht.
      * by apply Htm.
      * destruct (payload_timeout payload);
          [apply list_elem_of_singleton in Hnew; subst tm; by simpl in Ht
          |by apply elem_of_nil in Hnew
          |apply list_elem_of_singleton in Hnew; subst tm; by simpl in Ht].
    + intros Hlt. apply elem_of_cons. right. by apply Hin.
  - apply bool_decide_eq_false in Hev. split; [done|].
    intros Hlt. apply filter_other_id_keeps; [by apply Hin|congruence].
  - done.
  - destruct (click_registry v st) as (Ht & Htms & Hnow).
    unfold timersAfter. by rewrite Ht, Htms, Hnow.
  - split; [done|]. intros Hlt. simpl in Hlt. apply Hin. lia.
  - split.
    + intros tm Hin' Ht. apply Htm; [|done]. by eapply fireTimer_timers.
    + unfold fireTimer. destruct (timers st !! i) as [tm|] eqn:E; [|done].
      case_decide as Hdue; [|done]. simpl. intros Hlt.
      apply filter_other_id_keeps; [by apply Hin|].
      intros Heq. apply list_elem_of_lookup_2 in E.
      specialize (Htm tm E (eq_sym Heq)). lia.
Qed.

Lemma run_keeps_toast (x : ToastItem) (T : Z) evs st :
  Forall (λ ev, usesId (toast_id x) ev = false) evs →
  timersAfter (toast_id x) T st →
  ((now st < T)%Z → x ∈ toasts st) →
  (now (run V evs st) < T)%Z → x ∈ toasts (run V evs st).
Proof.
  intros Hevs. revert st.
  induction Hevs as [|ev evs Hev _ IH]; intros st Htm Hin; simpl; [done|].
  destruct (step_keeps_toast x T ev st Hev Htm Hin) as [Htm' Hin'].
  by apply IH.
Qed.

(** A toast with an id that no later [showToast] call generates does not
    come back. *)
Lemma run_keeps_absent (id : string) evs st :
  Forall (λ ev, postsId id ev = false) evs →
  id ∉ toastIds st → id ∉ toastIds (run V evs st).
Proof.
  intros Hevs. revert st.
  induction Hevs as [|ev evs Hev _ IH]; intros st Habs; simpl; [done|].
  apply IH. unfold toastIds in *.
  destruct ev as [gid payload|id'|gid opts|v|dt|i]; unfold step;
    simpl in Hev; try done.
  - apply bool_decide_eq_false in Hev.
    rewrite showToast_toasts, fmap_cons, not_elem_of_cons. split; [|done].
    simpl. congruence.
  - intros Hin. apply Habs. eapply elem_of_sublist; [exact Hin|].
    apply fmap_sublist, sublist_filter.
  - by destruct (click_registry v st) as (-> & _).
  - destruct (fireTimer_toasts i st) as [->|(tm & _ & _ & ->)]; [done|].
    intros Hin. apply Habs. eapply elem_of_sublist; [exact Hin|].
    apply fmap_sublist, sublist_filter.
Qed.

End Expiry.

Section Timeouts.

Variable V : Variant.

(** C4 (amended): a toast posted without a [timeout] gets exactly one
    timer, aimed at its id and set to the default of the provider, which is
    4000 ms in [part_000] and 3000 ms in [src/App.tsx]; as long as that
    delay has not elapsed the toast is in the registry, whatever else
    happens, provided no other call uses its id; once the delay has
    elapsed the timer fires and the toast is gone. *)
Theorem showToast_default_timeout (gid : string) (payload : ToastPayload)
    (st : AlertsState) :
  payload_timeout payload = TimeoutOmitted →
  timers (showToast V gid payload st).2 =
    timers st ++ [{| timer_delay := defaultTimeout V;
                     timer_due := now st + Z.max 0 (defaultTimeout V);
                     timer_target := gid |}] ∧
  (∀ evs,
     gid ∉ timer_target <$> timers st →
     Forall (λ ev, usesId gid ev = false) evs →
     (now (run V evs (showToast V gid payload st).2)
        < now st + defaultTimeout V)%Z →
     mkItem gid payload ∈ toasts (run V evs (showToast V gid payload st).2)) ∧
  (∀ dt : N,
     (defaultTimeout V ≤ Z.of_N dt)%Z →
     gid ∉ toastIds (run V [EvTick dt; EvFire (length (timers st))]
                       (showToast V gid payload st).2)) ∧
  defaultTimeout part_000 = 4000%Z ∧ defaultTimeout part_001 = 3000%Z.
Proof.
  intros Hto. split; [|split; [|split; [|done]]].
  - by rewrite showToast_timers, Hto.
  - intros evs Hfresh Hevs Hlt.
    apply (run_keeps_toast V (mkItem gid payload)
             (now st + defaultTimeout V)%Z); try done.
    + intros tm. rewrite showToast_timers, Hto, elem_of_app.
      intros [Hold|Hnew] Ht.
      * exfalso. apply Hfresh. apply list_elem_of_fmap. by exists tm.
      * apply list_elem_of_singleton in Hnew. subst tm. simpl. lia.
    + intros _. rewrite showToast_toasts. by left.
  - intros dt Hdt. set (st' := (showToast V gid payload st).2).
    change (gid ∉ toastIds (fireTimer (length (timers st)) (tick dt st'))).
    assert (Hl : timers (tick dt st') !! length (timers st) =
                 Some {| timer_delay := defaultTimeout V;
                         timer_due := now st + Z.max 0 (defaultTimeout V);
                         timer_target := gid |}).
    { change (timers (tick dt st')) with (timers st'). subst st'.
      rewrite showToast_timers, Hto. by apply list_lookup_middle. }
    unfold fireTimer. rewrite Hl.
    change (now (tick dt st')) with (now st' + Z.of_N dt)%Z.
    subst st'. rewrite showToast_now. simpl timer_due.
    case_decide as Hdue; [|lia]. apply filter_other_id_gone.
Qed.

(** C5 (amended): a toast posted with [timeout: null] gets no timer, and
    it stays in the registry whatever else happens, as long as no other
    call uses its id: no [hideToast] on it, no timer aimed at the same id
    pending when it is posted, and no later [showToast] that comes up with
    the same id. *)
Theorem showToast_null_timeout (gid : string) (payload : ToastPayload)
    (st : AlertsState) :
  payload_timeout payload = TimeoutNull →
  timers (showToast V gid payload st).2 = timers st ∧
  ∀ evs,
    gid ∉ timer_target <$> timers st →
    Forall (λ ev, usesId gid ev = false) evs →
    mkItem gid payload ∈ toasts (run V evs (showToast V gid payload st).2).
Proof.
  intros Hto.
  assert (Htm : timers (showToast V gid payload st).2 = timers st).
  { by rewrite showToast_timers, Hto, app_nil_r. }
  split; [done|]. intros evs Hfresh Hevs.
  apply (run_keeps_toast V (mkItem gid payload)
           (now (run V evs (showToast V gid payload st).2) + 1)%Z);
    try done; [|by rewrite showToast_toasts; left|lia].
  intros tm. rewrite Htm. intros Hin Ht.
  exfalso. apply Hfresh. apply list_elem_of_fmap. by exists tm.
Qed.

(** C7 (amended): [hideToast] leaves the timer table as it is, so the
    timer of the dismissed toast stays scheduled; the dismissal itself
    takes effect at once, the later fire of a timer aimed at that id
    changes nothing in the registry then, and no toast with that id is in
    the registry afterwards unless a [showToast] call comes up with the
    same id again. *)
Theorem hideToast_keeps_timer (id : string) (st : AlertsState) :
  timers (hideToast id st) = timers st ∧
  (id ∉ toastIds (hideToast id st)) ∧
  (∀ i tm,
     timers st !! i = Some tm → timer_target tm = id →
     toasts (fireTimer i (hideToast id st)) = toasts (hideToast id st)) ∧
  ∀ evs,
    Forall (λ ev, postsId id ev = false) evs →
    id ∉ toastIds (run V evs (hideToast id st)).
Proof.
  assert (Hgone : id ∉ toastIds (hideToast id st))
    by apply filter_other_id_gone.
  split; [done|]. split; [done|]. split.
  - intros i tm Hi Ht.
    destruct (fireTimer_toasts i (hideToast id st))
      as [->|(tm' & Hi' & _ & ->)]; [done|].
    simpl in Hi'. rewrite Hi in Hi'. injection Hi' as <-. rewrite Ht.
    by apply filter_other_id_absent.
  - intros evs Hevs. by apply run_keeps_absent.
Qed.

Lemma step_keeps_unique ev st :
  match ev with
  | EvShowToast gid _ => gid ∉ toastIds st
  | _ => True
  end →
  NoDup (toastIds st) → NoDup (toastIds (step V ev st)).
Proof.
  unfold toastIds.
  destruct ev as [gid payload|id|gid opts|v|dt|i]; unfold step;
    intros Hfresh Hnd; try done.
  - rewrite showToast_toasts, fmap_cons. by apply NoDup_cons.
  - eapply sublist_NoDup; [exact Hnd|]. apply fmap_sublist, sublist_filter.
  - by destruct (click_registry v st) as (-> & _).
  - destruct (fireTimer_toasts i st) as [->|(tm & _ & _ & ->)]; [done|].
    eapply sublist_NoDup; [exact Hnd|]. apply fmap_sublist, sublist_filter.
Qed.

(** C8 (amended): in every state reached from the initial one by calls
    and timer events in which each [showToast] call generates an id that
    no toast of the registry carries at that time, no two toasts of the
    registry have the same id. *)
Theorem toast_ids_unique (evs : list Event) :
  freshIds V evs initialState →
  NoDup (toastIds (run V evs initialState)).
Proof.
  assert (Hnd : NoDup (toastIds initialState)) by constructor.
  revert Hnd. generalize initialState.
  induction evs as [|ev evs' IH]; intros st Hnd Hfresh; simpl; [done|].
  destruct Hfresh as [Hev Hevs]. apply IH; [|done].
  by apply step_keeps_unique.
Qed.

End Timeouts.

Lemma showToast_default_timeout_witness :
  timers (showToast part_000 "a" samplePayload initialState).2 =
    [{| timer_delay := 4000; timer_due := 4000; timer_target := "a" |}] ∧
  mkItem "a" samplePayload ∈
    toasts (run part_000 [EvShowToast "b" stickyPayload; EvTick 3999; EvFire 0]
              (showToast part_000 "a" samplePayload initialState).2).
Proof.
  destruct (showToast_default_timeout part_000 "a" samplePayload
              initialState eq_refl) as (Htm & Hkeep & _).
  split; [exact Htm|]. apply Hkeep.
  - apply (bool_decide_unpack _). by vm_compute.
  - by repeat constructor.
  - by vm_compute.
Defined.

Lemma showToast_null_timeout_witness :
  mkItem "b" stickyPayload ∈
  toasts (run part_000
    [EvShowToast "a" samplePayload; EvTick 4000; EvFire 0; EvTick 100000]
    (showToast part_000 "b" stickyPayload initialState).2).
Proof.
  refine (proj2 (showToast_null_timeout part_000 "b" stickyPayload
                   initialState eq_refl) _ _ _).
  - apply (bool_decide_unpack _). by vm_compute.
  - by repeat constructor.
Defined.

Lemma hideToast_keeps_timer_witness :
  let st := (showToast part_000 "a" samplePayload initialState).2 in
  toasts (fireTimer 0 (hideToast "a" st)) = toasts (hideToast "a" st).
Proof.
  exact (proj1 (proj2 (proj2 (hideToast_keeps_timer part_000 "a"
    (showToast part_000 "a" samplePayload initialState).2)))
    0 _ eq_refl eq_refl).
Defined.

Lemma toast_ids_unique_witness :
  NoDup (toastIds (run part_001
    [EvShowToast "a" samplePayload; EvShowToast "b" stickyPayload;
     EvHideToast "a"; EvShowToast "a" samplePayload] initialState)).
Proof.
  apply (toast_ids_unique part_001).
  simpl. repeat split; apply (bool_decide_unpack _); by vm_compute.
Defined.

(** C4 as stated fails in [src/App.tsx]: the timer of a toast posted
    without a [timeout] is set to 3000 ms, and the toast is gone at that
    time, before 4000 ms have elapsed. *)
Lemma default_timeout_4000_counterexample :
  payload_timeout samplePayload = TimeoutOmitted ∧
  (timer_delay <$> timers (showToast part_001 "a" samplePayload initialState).2)
    = [3000%Z] ∧
  (∀ tm, tm ∈ timers (showToast part_001 "a" samplePayload initialState).2 →
         timer_delay tm ≠ 4000%Z) ∧
  now (run part_001 [EvShowToast "a" samplePayload; EvTick 3000; EvFire 0]
         initialState) = 3000%Z ∧
  toasts (run part_001 [EvShowToast "a" samplePayload; EvTick 3000; EvFire 0]
            initialState) = [].
Proof.
  split; [done|]. split; [done|]. split; [|done].
  intros tm Hin. apply list_elem_of_singleton in Hin. by subst tm.
Qed.

(** C7 as stated fails: after [hideToast] the timer of the dismissed toast
    is still in the timer table, and when it fires it removes a later
    toast that carries the same id, here one posted with [timeout: null]. *)
Lemma hideToast_cancels_timer_counterexample :
  let st1 := (showToast part_000 "a" samplePayload initialState).2 in
  let st2 := hideToast "a" st1 in
  timers st1 = [{| timer_delay := 4000; timer_due := 4000;
                   timer_target := "a" |}] ∧
  timers st2 = timers st1 ∧
  toasts (run part_000 [EvShowToast "a" stickyPayload] st2) =
    [mkItem "a" stickyPayload] ∧
  toasts (run part_000
            [EvShowToast "a" stickyPayload; EvTick 4000; EvFire 0] st2) = [].
Proof. done. Qed.

(** C8 as stated fails: nothing in [showToast] compares the generated id
    with the ids of the registry, so two calls for which the generator
    returns the same string leave two toasts with one id. *)
Lemma toast_ids_unique_counterexample :
  toastIds (run part_000
    [EvShowToast "a" samplePayload; EvShowToast "a" stickyPayload]
    initialState) = ["a"; "a"] ∧
  ¬ NoDup (toastIds (run part_000
    [EvShowToast "a" samplePayload; EvShowToast "a" stickyPayload]
    initialState)).
Proof.
  split; [done|]. intros Hnd. apply NoDup_cons_1_1 in Hnd.
  apply Hnd. by left.
Qed.

(** C5 as stated fails: a toast posted with [timeout: null] is removed
    with no [hideToast] at all, by the timer of an earlier toast for which
    the generator returned the same id. *)
Lemma null_timeout_removed_counterexample :
  let st1 := (showToast part_000 "a" samplePayload initialState).2 in
  let st2 := (showToast part_000 "a" stickyPayload st1).2 in
  payload_timeout stickyPayload = TimeoutNull ∧
  timers st2 = timers st1 ∧
  mkItem "a" stickyPayload ∈ toasts st2 ∧
  Forall (λ ev, match ev with EvHideToast _ => False | _ => True end)
    [EvShowToast "a" samplePayload; EvShowToast "a" stickyPayload;
     EvTick 4000; EvFire 0] ∧
  toasts (run part_000
    [EvShowToast "a" samplePayload; EvShowToast "a" stickyPayload;
     EvTick 4000; EvFire 0] initialState) = [].
Proof.
  intros st1 st2. split; [done|]. split; [done|]. split; [by left|].
  split; [by repeat constructor|done].
Qed.

(** ** The confirmation broker *)

Section Broker.

Variable V : Variant.

Lemma callsFor_snoc q p v st st' :
  resolveCalls st' = resolveCalls st ++ [(p, v)] →
  callsFor q st' = callsFor q st ++ (if decide (p = q) then [(p, v)] else []).
Proof.
  intros Hc. unfold callsFor. by rewrite Hc, filter_app.
Qed.

(** The invariant reads the broker's part of the state only. *)
Lemma brokerInv_ext st st' :
  confirmModal st' = confirmModal st →
  promises st' = promises st →
  resolveCalls st' = resolveCalls st →
  brokerInv st → brokerInv st'.
Proof.
  intros Hm Hp Hc [H1 H2 H3 H4].
  split; unfold callsFor; rewrite ?Hm, ?Hp, ?Hc; auto.
Qed.

Lemma brokerInv_initial : brokerInv initialState.
Proof. split; simpl; try done. intros p v Hin. by apply elem_of_nil in Hin. Qed.

Lemma callsFor_unallocated st p :
  brokerInv st → length (promises st) ≤ p → callsFor p st = [].
Proof.
  intros Hinv Hp. apply elem_of_nil_inv. intros [q w] Hin.
  apply list_elem_of_filter in Hin as [Hq Hin]. simpl in Hq. subst q.
  apply (inv_alloc _ Hinv) in Hin. lia.
Qed.

Lemma confirm_fst gid opts st :
  (confirm gid opts st).1 = length (promises st).
Proof. done. Qed.

Lemma confirm_promises gid opts st :
  promises (confirm gid opts st).2 = promises st ++ [None].
Proof. done. Qed.

Lemma confirm_calls gid opts st :
  resolveCalls (confirm gid opts st).2 = resolveCalls st.
Proof. done. Qed.

Lemma confirm_slot gid opts st :
  confirmModal (confirm gid opts st).2 =
  Some {| confirm_id := gid;
          confirm_title := opts_title opts;
          confirm_message := opts_message opts;
          confirm_okLabel := Some (orLabel (opts_okLabel opts) "OK");
          confirm_cancelLabel :=
            Some (orLabel (opts_cancelLabel opts) "Annuler");
          confirm_resolve := length (promises st) |}.
Proof. done. Qed.

Lemma confirm_pending gid opts st :
  promises (confirm gid opts st).2 !! (confirm gid opts st).1 = Some None.
Proof. rewrite confirm_promises, confirm_fst. by apply list_lookup_middle. Qed.

Lemma confirm_keeps_promise gid opts st p o :
  promises st !! p = Some o →
  promises (confirm gid opts st).2 !! p = Some o.
Proof. rewrite confirm_promises. apply lookup_app_l_Some. Qed.

(** What a click does when the request of the slot holds the resolver of
    a pending promise. *)
Lemma click_settles v st c :
  confirmModal st = Some c →
  promises st !! confirm_resolve c = Some None →
  promises (clickConfirmButton v st) =
    <[confirm_resolve c := Some v]> (promises st) ∧
  resolveCalls (clickConfirmButton v st) =
    resolveCalls st ++ [(confirm_resolve c, v)] ∧
  confirmModal (clickConfirmButton v st) = None.
Proof.
  intros Hm Hp. unfold clickConfirmButton. rewrite Hm.
  unfold payload_resolve, promiseResolve. simpl. by rewrite Hp.
Qed.

(** A call to the resolver of a promise that is settled already. *)
Lemma stale_resolve c v v' st :
  promises st !! confirm_resolve c = Some (Some v) →
  promises (payload_resolve c v' st) = promises st ∧
  confirmModal (payload_resolve c v' st) = None ∧
  toasts (payload_resolve c v' st) = toasts st ∧
  timers (payload_resolve c v' st) = timers st.
Proof.
  intros Hp. unfold payload_resolve, promiseResolve. simpl. by rewrite Hp.
Qed.

Lemma click_empty v st :
  confirmModal st = None → clickConfirmButton v st = st.
Proof. intros Hm. unfold clickConfirmButton. by rewrite Hm. Qed.

Lemma brokerInv_confirm gid opts st :
  brokerInv st → brokerInv (confirm gid opts st).2.
Proof.
  intros Hinv. split.
  - intros p v. rewrite confirm_calls, confirm_promises, length_app.
    intros Hin. apply (inv_alloc _ Hinv) in Hin. lia.
  - intros p. rewrite confirm_promises. intros Hp.
    unfold callsFor. rewrite confirm_calls.
    apply lookup_app_Some in Hp as [Hp|[Hge _]].
    + by apply (inv_pending _ Hinv).
    + by apply callsFor_unallocated.
  - intros p v. rewrite confirm_promises. intros Hp.
    unfold callsFor. rewrite confirm_calls.
    apply lookup_app_Some in Hp as [Hp|[_ Hp]].
    + by apply (inv_settled _ Hinv).
    + by apply list_lookup_singleton_Some in Hp as [_ ?].
  - intros c. rewrite confirm_slot. intros [= <-].
    exact (confirm_pending gid opts st).
Qed.

Lemma brokerInv_click v st :
  brokerInv st → brokerInv (clickConfirmButton v st).
Proof.
  intros Hinv. destruct (confirmModal st) as [c|] eqn:Hm;
    [|by rewrite click_empty].
  pose proof (inv_slot _ Hinv c Hm) as Hp.
  destruct (click_settles v st c Hm Hp) as (Hps & Hcs & Hnone).
  split.
  - intros q w. rewrite Hcs, Hps, length_insert, elem_of_app.
    intros [Hin|Hin]; [by apply (inv_alloc _ Hinv) in Hin|].
    apply list_elem_of_singleton in Hin as [= -> ->].
    by apply lookup_lt_Some in Hp.
  - intros q. rewrite Hps, (callsFor_snoc q _ v st _ Hcs). intros Hq.
    destruct (decide (confirm_resolve c = q)) as [<-|Hne].
    + rewrite list_lookup_insert_eq in Hq by (by apply lookup_lt_Some in Hp).
      done.
    + rewrite list_lookup_insert_ne in Hq by done.
      by rewrite (inv_pending _ Hinv q Hq).
  - intros q w. rewrite Hps, (callsFor_snoc q _ v st _ Hcs). intros Hq.
    destruct (decide (confirm_resolve c = q)) as [<-|Hne].
    + rewrite list_lookup_insert_eq in Hq by (by apply lookup_lt_Some in Hp).
      injection Hq as <-. by rewrite (inv_pending _ Hinv _ Hp).
    + rewrite list_lookup_insert_ne in Hq by done.
      by rewrite (inv_settled _ Hinv q w Hq), app_nil_r.
  - intros c'. by rewrite Hnone.
Qed.

Lemma fireTimer_broker i st :
  confirmModal (fireTimer i st) = confirmModal st ∧
  promises (fireTimer i st) = promises st ∧
  resolveCalls (fireTimer i st) = resolveCalls st.
Proof.
  unfold fireTimer. destruct (timers st !! i); [|done]. by case_decide.
Qed.

Lemma brokerInv_step ev st : brokerInv st → brokerInv (step V ev st).
Proof.
  intros Hinv. destruct ev as [gid payload|id|gid opts|v|dt|i]; unfold step.
  - destruct (showToast_broker V gid payload st) as (Hm & Hp & Hc).
    by apply (brokerInv_ext st).
  - by apply (brokerInv_ext st).
  - by apply brokerInv_confirm.
  - by apply brokerInv_click.
  - by apply (brokerInv_ext st).
  - destruct (fireTimer_broker i st) as (Hm & Hp & Hc).
    by apply (brokerInv_ext st).
Qed.

Lemma brokerInv_run evs st : brokerInv st → brokerInv (run V evs st).
Proof.
  revert st. induction evs as [|ev evs IH]; intros st Hinv; simpl; [done|].
  by apply IH, brokerInv_step.
Qed.

(** A promise keeps its state over every event but the click that settles
    it, and that click needs its resolver in the slot. *)
Lemma step_keeps_promise ev st p o :
  brokerInv st →
  promises st !! p = Some o →
  ¬ resolverHeld p st →
  promises (step V ev st) !! p = Some o ∧ ¬ resolverHeld p (step V ev st).
Proof.
  unfold resolverHeld. intros Hinv Hp Hfree.
  destruct ev as [gid payload|id|gid opts|v|dt|i]; unfold step.
  - by destruct (showToast_broker V gid payload st) as (-> & -> & _).
  - done.
  - split; [by apply confirm_keeps_promise|].
    rewrite confirm_slot. simpl. intros [= Heq].
    apply lookup_lt_Some in Hp. lia.
  - destruct (confirmModal st) as [c|] eqn:Hm; [|by rewrite click_empty, Hm].
    pose proof (inv_slot _ Hinv c Hm) as Hc.
    destruct (click_settles v st c Hm Hc) as (-> & _ & ->).
    split; [|done]. rewrite list_lookup_insert_ne; [done|].
    intros Heq. apply Hfree. simpl. by rewrite Heq.
  - done.
  - by destruct (fireTimer_broker i st) as (-> & -> & _).
Qed.

Lemma run_keeps_promise evs st p o :
  brokerInv st →
  promises st !! p = Some o →
  ¬ resolverHeld p st →
  promises (run V evs st) !! p = Some o.
Proof.
  revert st. induction evs as [|ev evs IH]; intros st Hinv Hp Hfree; [done|].
  destruct (step_keeps_promise ev st p o Hinv Hp Hfree) as [Hp' Hfree'].
  simpl. apply IH; [by apply brokerInv_step|done|done].
Qed.

End Broker.

Section Confirmations.

Variable V : Variant.

(** C2: a confirmation created by [confirm], in any state the provider
    can be in, starts pending with its resolver in the slot and no call to
    it.  When, after any further events, its request is the one in the
    slot and one of the two buttons is clicked, the click settles its
    promise to the value of that button with one call to the resolver and
    empties the slot; after that another click changes nothing, a call to
    a stale [resolve] closure of that request leaves the promise, the slot
    and the registry as they are, and no later event changes the settled
    value or calls the resolver again. *)
Theorem confirm_settles_once (evs mid : list Event) (gid : string)
    (opts : ConfirmOpts) (v : bool) :
  let st := run V evs initialState in
  let p := (confirm gid opts st).1 in
  let st1 := (confirm gid opts st).2 in
  let st2 := clickConfirmButton v (run V mid st1) in
  resolverHeld p (run V mid st1) →
  (promises st1 !! p = Some None ∧ resolverHeld p st1 ∧ callsFor p st1 = []) ∧
  (promises (run V mid st1) !! p = Some None ∧
   callsFor p (run V mid st1) = []) ∧
  (promises st2 !! p = Some (Some v) ∧ callsFor p st2 = [(p, v)] ∧
   confirmModal st2 = None) ∧
  (∀ v', clickConfirmButton v' st2 = st2) ∧
  (∀ c v', confirm_resolve c = p →
     promises (payload_resolve c v' st2) = promises st2 ∧
     confirmModal (payload_resolve c v' st2) = None ∧
     toasts (payload_resolve c v' st2) = toasts st2 ∧
     timers (payload_resolve c v' st2) = timers st2) ∧
  (∀ evs', promises (run V evs' st2) !! p = Some (Some v) ∧
           callsFor p (run V evs' st2) = [(p, v)]).
Proof.
  intros st p st1 st2 Hheld.
  assert (Hinv : brokerInv st) by apply brokerInv_run, brokerInv_initial.
  assert (Hinv1 : brokerInv st1) by by apply brokerInv_confirm.
  assert (Hinvm : brokerInv (run V mid st1)) by by apply brokerInv_run.
  assert (Hinv2 : brokerInv st2) by by apply brokerInv_click.
  assert (Hp1 : promises st1 !! p = Some None) by apply confirm_pending.
  unfold resolverHeld in Hheld.
  destruct (confirmModal (run V mid st1)) as [c|] eqn:Hm; [|done].
  injection Hheld as Hc.
  assert (Hpm : promises (run V mid st1) !! p = Some None).
  { rewrite <- Hc. by apply (inv_slot _ Hinvm). }
  destruct (click_settles v (run V mid st1) c Hm) as (Hps & _ & Hnone).
  { by rewrite Hc. }
  fold st2 in Hps, Hnone. rewrite Hc in Hps.
  assert (Hp2 : promises st2 !! p = Some (Some v)).
  { rewrite Hps. apply list_lookup_insert_eq. by apply lookup_lt_Some in Hpm. }
  split; [|split; [|split; [|split; [|split]]]].
  - split; [done|]. split; [|by apply (inv_pending _ Hinv1)].
    unfold resolverHeld, st1. by rewrite confirm_slot.
  - split; [done|]. by apply (inv_pending _ Hinvm).
  - split; [done|]. split; [|done]. by apply (inv_settled _ Hinv2).
  - intros v'. by apply click_empty.
  - intros c' v' Hc'. apply (stale_resolve c' v v'). by rewrite Hc'.
  - intros evs'. split.
    + apply run_keeps_promise; [done|done|].
      unfold resolverHeld. by rewrite Hnone.
    + apply (inv_settled (run V evs' st2)); [by apply brokerInv_run|].
      apply run_keeps_promise; [done|done|].
      unfold resolverHeld. by rewrite Hnone.
Qed.

(** C1 (amended): a [confirm] call made while a request is pending is
    neither refused nor queued: it creates a new pending promise and puts
    its own request in the slot, in place of the one that was there; the
    call settles no promise, so the promise of the earlier request is as
    pending as before; the next click settles the promise of the new
    request and empties the slot. *)
Theorem confirm_replaces_pending (evs : list Event) (c : ConfirmPayload)
    (gid : string) (opts : ConfirmOpts) :
  let st := run V evs initialState in
  let p' := (confirm gid opts st).1 in
  let st' := (confirm gid opts st).2 in
  confirmModal st = Some c →
  (∃ c', confirmModal st' = Some c' ∧ confirm_id c' = gid ∧
         confirm_message c' = opts_message opts ∧ confirm_resolve c' = p') ∧
  p' ≠ confirm_resolve c ∧
  promises st' !! p' = Some None ∧
  promises st' !! confirm_resolve c = Some None ∧
  length (promises st') = S (length (promises st)) ∧
  ∀ v, promises (clickConfirmButton v st') !! p' = Some (Some v) ∧
       promises (clickConfirmButton v st') !! confirm_resolve c = Some None ∧
       confirmModal (clickConfirmButton v st') = None.
Proof.
  intros st p' st' Hm.
  assert (Hinv : brokerInv st) by apply brokerInv_run, brokerInv_initial.
  pose proof (inv_slot _ Hinv c Hm) as Hc.
  assert (Hne : p' ≠ confirm_resolve c).
  { apply lookup_lt_Some in Hc. unfold p'. rewrite confirm_fst. lia. }
  assert (Hp' : promises st' !! p' = Some None) by apply confirm_pending.
  assert (Hc' : promises st' !! confirm_resolve c = Some None)
    by by apply confirm_keeps_promise.
  split; [by eexists; split; [apply confirm_slot|]|].
  split; [done|]. split; [done|]. split; [done|]. split.
  { unfold st'. rewrite confirm_promises, length_app. simpl. lia. }
  intros v.
  destruct (click_settles v st' _ (confirm_slot gid opts st) Hp')
    as (Hps & _ & Hnone).
  rewrite Hps, Hnone. simpl confirm_resolve.
  change (length (promises st)) with p'.
  split; [|split; [|done]].
  - apply list_lookup_insert_eq. by apply lookup_lt_Some in Hp'.
  - by rewrite list_lookup_insert_ne.
Qed.

End Confirmations.

Lemma confirm_settles_once_witness :
  let st1 := (confirm "q7" sampleOpts initialState).2 in
  let mid := [EvShowToast "a" samplePayload; EvTick 250] in
  let st2 := clickConfirmButton true (run part_000 mid st1) in
  promises st2 !! 0 = Some (Some true) ∧ callsFor 0 st2 = [(0, true)] ∧
  confirmModal st2 = None.
Proof.
  exact (proj1 (proj2 (proj2 (confirm_settles_once part_000 []
    [EvShowToast "a" samplePayload; EvTick 250] "q7" sampleOpts true
    eq_refl)))).
Defined.

Lemma confirm_replaces_pending_witness :
  let st := run part_001 [EvConfirm "a" sampleOpts] initialState in
  promises (confirm "b" sampleOpts st).2 !! 1 = Some None ∧
  promises (confirm "b" sampleOpts st).2 !! 0 = Some None.
Proof.
  pose proof (confirm_replaces_pending part_001 [EvConfirm "a" sampleOpts]
    _ "b" sampleOpts eq_refl) as (_ & _ & H1 & H0 & _).
  exact (conj H1 H0).
Defined.

(** C1 as stated fails: the second of two [confirm] calls takes the slot,
    the resolver of the first promise is then held nowhere in the state,
    and no sequence of later events settles the first promise. *)
Lemma confirm_while_pending_counterexample :
  let p1 := (confirm "a" sampleOpts initialState).1 in
  let st1 := (confirm "a" sampleOpts initialState).2 in
  let st2 := (confirm "b" sampleOpts st1).2 in
  (confirm_id <$> confirmModal st1) = Some "a" ∧
  resolverHeld p1 st1 ∧
  (confirm_id <$> confirmModal st2) = Some "b" ∧
  ¬ resolverHeld p1 st2 ∧
  promises st2 !! p1 = Some None ∧
  ∀ evs, promises (run part_000 evs st2) !! p1 = Some None.
Proof.
  intros p1 st1 st2.
  assert (Hfree : ¬ resolverHeld p1 st2) by by intros [=].
  repeat (split; [done|]).
  intros evs. apply run_keeps_promise; [|done|done].
  apply brokerInv_confirm, brokerInv_confirm, brokerInv_initial.
Qed.

(** ** Task statuses and date checks *)

Ltac js_cases :=
  simpl in *;
  repeat (match goal with
  | |- context [String.eqb ?a ?b] => destruct (String.eqb_spec a b); subst
  | H : context [String.eqb ?a ?b] |- _ =>
      destruct (String.eqb_spec a b); subst
  | |- context [(?a <? ?b)%Z] => destruct (Z.ltb_spec a b)
  | |- context [(?a <=? ?b)%Z] => destruct (Z.leb_spec a b)
  | |- context [(?a =? ?b)%Z] => destruct (Z.eqb_spec a b)
  | H : context [(?a <? ?b)%Z] |- _ => destruct (Z.ltb_spec a b)
  | H : context [(?a <=? ?b)%Z] |- _ => destruct (Z.leb_spec a b)
  | H : context [(?a =? ?b)%Z] |- _ => destruct (Z.eqb_spec a b)
  end; simpl in *).

Section DateFacts.

Variable getTime : string → JSNumber.

(** X1: as time passes the status of a task only moves forward, from
    "En attente" to "En cours" to "Terminée", whatever its two dates are
    and whatever they parse to. *)
Theorem computeStatus_monotone (now now' : Z) (start end_ : option string) :
  (now ≤ now')%Z →
  statusRank (computeStatusFromDates getTime now start end_) ≤
  statusRank (computeStatusFromDates getTime now' start end_).
Proof.
  intros Hle. unfold computeStatusFromDates, timeOrNull.
  destruct start as [s|], end_ as [e|]; simpl;
    try destruct (getTime s) as [|a]; try destruct (getTime e) as [|b];
    simpl; js_cases; simpl; lia.
Qed.

(** X2: with a start and an end that both parse (to a time other than the
    epoch), the task waits before its start, is finished once the start
    and the end are both reached, and runs in between; when the end is not
    after the start it never runs. *)
Theorem computeStatus_both_dates (now a b : Z) (s e : string) :
  s ≠ "" → e ≠ "" →
  getTime s = Num a → getTime e = Num b → a ≠ 0%Z → b ≠ 0%Z →
  let st := computeStatusFromDates getTime now (Some s) (Some e) in
  (st = EnAttente ↔ (now < a)%Z) ∧
  (st = EnCours ↔ (a ≤ now < b)%Z) ∧
  (st = Terminee ↔ (a ≤ now ∧ b ≤ now)%Z).
Proof.
  intros Hs He Ha Hb Ha0 Hb0.
  unfold computeStatusFromDates, timeOrNull. simpl. rewrite Ha, Hb. simpl.
  js_cases; simpl; repeat split; intros; try done; try lia.
Qed.

(** X3: with one date only, the other one absent: a task with a start and
    no end waits until the start and runs from then on, and is never
    finished; a task with an end and no start runs until the end and is
    finished from then on, and never waits. *)
Theorem computeStatus_one_date (now a : Z) (s : string) :
  s ≠ "" → getTime s = Num a → a ≠ 0%Z →
  computeStatusFromDates getTime now (Some s) None =
    (if decide (now < a)%Z then EnAttente else EnCours) ∧
  computeStatusFromDates getTime now None (Some s) =
    (if decide (now < a)%Z then EnCours else Terminee).
Proof.
  intros Hs Ha Ha0.
  unfold computeStatusFromDates, timeOrNull. simpl. rewrite Ha. simpl.
  js_cases; simpl; split; case_decide; try done; lia.
Qed.

(** X4: a date that is empty, that does not parse, or that parses to the
    epoch counts as absent, for the start as for the end; with no usable
    date at all the status is "En attente" at every time. *)
Theorem computeStatus_unusable_date (now : Z) (x other : option string) :
  truthyNumber (timeOrNull getTime x) = false →
  computeStatusFromDates getTime now x other =
    computeStatusFromDates getTime now None other ∧
  computeStatusFromDates getTime now other x =
    computeStatusFromDates getTime now other None ∧
  (truthyNumber (timeOrNull getTime other) = false →
   computeStatusFromDates getTime now x other = EnAttente).
Proof.
  unfold computeStatusFromDates, timeOrNull.
  destruct x as [s|], other as [e|]; simpl;
    try destruct (getTime s) as [|a]; try destruct (getTime e) as [|b];
    simpl; js_cases; simpl; try done; repeat split; try done;
    try destruct (getTime s) as [|a]; try destruct (getTime e) as [|b];
    simpl in *; js_cases; try done; try lia.
Qed.

(** X5: when the guards of [addTask] let a task through, it has a title;
    a start date, if given, parses and is not in the past; and an end
    date that is given with it and parses is not before the start. *)
Theorem addTaskGuard_accepts (now : Z) (title startDate endDate : string) :
  addTaskGuard getTime now title startDate endDate = None →
  title ≠ "" ∧
  (startDate ≠ "" →
   ∃ a, getTime startDate = Num a ∧ (now ≤ a)%Z ∧
        (endDate ≠ "" → ∀ b, getTime endDate = Num b → (a ≤ b)%Z)).
Proof.
  unfold addTaskGuard, validateNotPastLocal, truthyString, jsGe, jsLt.
  destruct (String.eqb_spec title ""); simpl; [done|].
  destruct (String.eqb_spec startDate ""); simpl; [done|].
  destruct (getTime startDate) as [|a]; simpl; [done|].
  destruct (Z.leb_spec now a); simpl; [|done].
  destruct (String.eqb_spec endDate ""); simpl.
  - intros _. split; [done|]. intros _. exists a. by repeat split.
  - destruct (getTime endDate) as [|b]; simpl.
    + intros _. split; [done|]. intros _. exists a. by repeat split.
    + destruct (Z.ltb_spec b a); simpl; [done|]. intros _.
      split; [done|]. intros _. exists a. repeat split; try done.
      intros _ b' [= <-]. lia.
Qed.

(** X6: what the guards of [addTask] do not check: an end date given
    without a start date passes whatever it is, and so does an end date
    that does not parse, next to a start date that is accepted. *)
Theorem addTaskGuard_unchecked_end (now : Z) (title startDate endDate : string) :
  title ≠ "" →
  addTaskGuard getTime now title "" endDate = None ∧
  (getTime endDate = NaN →
   validateNotPastLocal getTime now (Some startDate) = true →
   addTaskGuard getTime now title startDate endDate = None).
Proof.
  intros Ht. unfold addTaskGuard, truthyString.
  destruct (String.eqb_spec title ""); [done|]. simpl. split.
  - by rewrite andb_false_r.
  - intros Hnan Hok. rewrite Hok, Hnan. simpl.
    by rewrite !andb_false_r.
Qed.

End DateFacts.

Lemma computeStatus_monotone_witness :
  statusRank (computeStatusFromDates (λ _, Num 50) 10 (Some "d") None) ≤
  statusRank (computeStatusFromDates (λ _, Num 50) 60 (Some "d") None).
Proof. apply computeStatus_monotone. lia. Defined.

Lemma computeStatus_both_dates_witness :
  computeStatusFromDates
    (λ x, if String.eqb x "s" then Num 100 else Num 200) 150
    (Some "s") (Some "e") = EnCours.
Proof.
  apply (computeStatus_both_dates
    (λ x, if String.eqb x "s" then Num 100 else Num 200) 150 100 200 "s" "e");
    done.
Defined.

Lemma computeStatus_one_date_witness :
  computeStatusFromDates (λ _, Num 100) 150 None (Some "e") = Terminee.
Proof.
  exact (proj2 (computeStatus_one_date (λ _, Num 100) 150 100 "e"
    ltac:(done) eq_refl ltac:(done))).
Defined.

Lemma computeStatus_unusable_date_witness :
  computeStatusFromDates (λ _, NaN) 150 (Some "pas une date") (Some "non") =
  EnAttente.
Proof.
  exact (proj2 (proj2 (computeStatus_unusable_date (λ _, NaN) 150
    (Some "pas une date") (Some "non") eq_refl)) eq_refl).
Defined.

Lemma addTaskGuard_accepts_witness :
  "Courses" ≠ "" ∧
  ("2030-01-01T10:00" ≠ "" →
   ∃ a, (λ _ : string, Num 500) "2030-01-01T10:00" = Num a ∧ (100 ≤ a)%Z ∧
        ("" ≠ "" → ∀ b, (λ _ : string, Num 500) "" = Num b → (a ≤ b)%Z)).
Proof.
  exact (addTaskGuard_accepts (λ _, Num 500) 100 "Courses"
           "2030-01-01T10:00" "" eq_refl).
Defined.

Lemma addTaskGuard_unchecked_end_witness :
  addTaskGuard (λ _, Num 1) 100 "Courses" "" "1999-01-01T00:00" = None.
Proof.
  exact (proj1 (addTaskGuard_unchecked_end (λ _, Num 1) 100 "Courses" ""
    "1999-01-01T00:00" ltac:(done))).
Defined.

(** ** Lists sorted by creation date *)

Section SortFacts.

Variable getTime : string → JSNumber.
Variable T : Type.
Variable createdAt : T → option string.
Variable created_at : T → option string.

Local Abbreviation time := (createdTime getTime T createdAt created_at).
Local Abbreviation cmp := (compareCreated getTime T createdAt created_at).
Local Abbreviation stampOf := (stamp getTime T createdAt created_at).
Local Abbreviation sortDesc :=
  (sortByCreatedDesc getTime T createdAt created_at).
Local Abbreviation parse := (datesParse getTime T createdAt created_at).
Local Abbreviation newestFirst :=
  (newestFirst getTime T createdAt created_at).

Lemma goesBefore_stamp (a b : T) :
  time a ≠ NaN → time b ≠ NaN →
  goesBefore T cmp a b = (stampOf b <? stampOf a)%Z.
Proof.
  unfold goesBefore, compareCreated, stamp, jsSub, jsLt.
  destruct (time a) as [|x], (time b) as [|y]; try done. intros _ _.
  destruct (Z.ltb_spec (y - x) 0), (Z.ltb_spec y x); try done; lia.
Qed.

Lemma insertSorted_perm (f : T → T → JSNumber) (x : T) (l : list T) :
  insertSorted T f x l ≡ₚ x :: l.
Proof.
  induction l as [|y l IH]; simpl; [done|].
  destruct (goesBefore T f y x); [|done].
  rewrite IH. apply Permutation_swap.
Qed.

Lemma arraySort_perm (f : T → T → JSNumber) (l : list T) :
  arraySort T f l ≡ₚ l.
Proof.
  induction l as [|x l IH]; simpl; [done|].
  fold (arraySort T f l). by rewrite insertSorted_perm, IH.
Qed.

Lemma insertSorted_sorted (x : T) (l : list T) :
  parse (x :: l) →
  StronglySorted newestFirst l →
  StronglySorted newestFirst (insertSorted T cmp x l).
Proof.
  intros Hp Hs. apply Forall_cons in Hp as [Hx Hl].
  induction Hs as [|y l Hs IH Hy]; simpl.
  { by repeat constructor. }
  apply Forall_cons in Hl as [Hy' Hl].
  rewrite goesBefore_stamp by done.
  destruct (Z.ltb_spec (stampOf x) (stampOf y)) as [Hlt|Hge].
  - constructor; [by apply IH|].
    rewrite insertSorted_perm. constructor; [|done].
    unfold newestFirst. lia.
  - constructor; [by constructor|]. constructor; [done|].
    eapply Forall_impl; [exact Hy|]. unfold newestFirst. intros z Hz. lia.
Qed.

Lemma insertSorted_same_time (x : T) (l : list T) (k : Z) :
  parse (x :: l) →
  filter (λ a, stampOf a = k) (insertSorted T cmp x l) =
  filter (λ a, stampOf a = k) (x :: l).
Proof.
  intros Hp. apply Forall_cons in Hp as [Hx Hl].
  induction l as [|y l IH]; simpl; [done|].
  apply Forall_cons in Hl as [Hy Hl].
  rewrite goesBefore_stamp by done.
  destruct (Z.ltb_spec (stampOf x) (stampOf y)) as [Hlt|Hge]; [|done].
  rewrite (filter_cons _ y), IH, (filter_cons _ x), (filter_cons _ x),
    (filter_cons _ y) by done.
  repeat case_decide; try done. lia.
Qed.

Lemma insertSorted_newest (x : T) (l : list T) :
  parse (x :: l) →
  Forall (λ y, newestFirst x y) l →
  insertSorted T cmp x l = x :: l.
Proof.
  intros Hp Hall. apply Forall_cons in Hp as [Hx Hl].
  destruct l as [|y l]; simpl; [done|].
  apply Forall_cons in Hl as [Hy _]. apply Forall_cons in Hall as [Hxy _].
  rewrite goesBefore_stamp by done.
  destruct (Z.ltb_spec (stampOf x) (stampOf y)); [|done].
  unfold newestFirst in Hxy. lia.
Qed.

Lemma arraySort_sorted_id (l : list T) :
  parse l → StronglySorted newestFirst l → arraySort T cmp l = l.
Proof.
  intros Hp Hs. induction Hs as [|x l Hs IH Hx]; simpl; [done|].
  fold (arraySort T cmp l).
  rewrite IH by by apply Forall_cons in Hp as [_ ?].
  by apply insertSorted_newest.
Qed.

(** X7: [sortByCreatedDesc] returns the elements it was given, each as
    often as it was given, whatever their dates are; for [null] it returns
    the empty list. *)
Theorem sortByCreatedDesc_permutes (arr : option (list T)) :
  sortByCreatedDesc getTime T createdAt created_at arr ≡ₚ default [] arr ∧
  length (sortByCreatedDesc getTime T createdAt created_at arr) =
    length (default [] arr) ∧
  sortByCreatedDesc getTime T createdAt created_at None = [].
Proof.
  assert (Hperm : sortDesc arr ≡ₚ default [] arr) by apply arraySort_perm.
  split; [done|]. split; [by rewrite Hperm|done].
Qed.

Lemma arraySort_descending (l : list T) :
  parse l → StronglySorted newestFirst (arraySort T cmp l).
Proof.
  intros Hp. induction l as [|x l IH]; simpl; [constructor|].
  fold (arraySort T cmp l). apply Forall_cons in Hp as [Hx Hl].
  apply insertSorted_sorted; [|by apply IH].
  constructor; [done|]. unfold datesParse.
  by rewrite arraySort_perm.
Qed.

(** X8: when the creation dates of all elements parse, the result has the
    newest element first: no element is older than one that comes after
    it, and the first element of the result is as new as any element that
    was given. *)
Theorem sortByCreatedDesc_newest_first (l : list T) :
  datesParse getTime T createdAt created_at l →
  StronglySorted newestFirst
    (sortByCreatedDesc getTime T createdAt created_at (Some l)) ∧
  ∀ x rest,
    sortByCreatedDesc getTime T createdAt created_at (Some l) = x :: rest →
    ∀ y, y ∈ l → (stampOf y ≤ stampOf x)%Z.
Proof.
  intros Hp.
  assert (Hs : StronglySorted newestFirst (sortDesc (Some l)))
    by by apply arraySort_descending.
  split; [done|]. intros x rest Heq y Hy.
  assert (Hin : y ∈ sortDesc (Some l)).
  { unfold sortByCreatedDesc. by rewrite arraySort_perm. }
  rewrite Heq in Hs, Hin. apply StronglySorted_inv in Hs as [_ Hall].
  apply elem_of_cons in Hin as [->|Hin]; [lia|].
  by apply (proj1 (Forall_forall _ _) Hall).
Qed.

(** X9: the sort is stable on [sortByCreatedDesc]'s comparator: elements
    with the same creation time come out in the order in which they were
    given. *)
Theorem sortByCreatedDesc_stable (l : list T) (k : Z) :
  datesParse getTime T createdAt created_at l →
  filter (λ a, stamp getTime T createdAt created_at a = k)
    (sortByCreatedDesc getTime T createdAt created_at (Some l)) =
  filter (λ a, stamp getTime T createdAt created_at a = k) l.
Proof.
  unfold sortByCreatedDesc. simpl. intros Hp.
  induction l as [|x l IH]; simpl; [done|].
  fold (arraySort T cmp l). apply Forall_cons in Hp as [Hx Hl].
  rewrite insertSorted_same_time.
  - rewrite !(filter_cons _ x). by rewrite IH.
  - constructor; [done|]. unfold datesParse. by rewrite arraySort_perm.
Qed.

(** X10: sorting a sorted list changes nothing, and the way the handlers
    add an element, [sortByCreatedDesc([x, ...prev])] on a list [prev] that
    came out of [sortByCreatedDesc], puts [x] in front of [prev] when no
    element of [prev] is newer than [x]. *)
Theorem sortByCreatedDesc_prepend (x : T) (l : list T) :
  datesParse getTime T createdAt created_at (x :: l) →
  Forall (λ y, newestFirst x y) l →
  let prev := sortByCreatedDesc getTime T createdAt created_at (Some l) in
  sortByCreatedDesc getTime T createdAt created_at (Some prev) = prev ∧
  sortByCreatedDesc getTime T createdAt created_at (Some (x :: prev)) =
    x :: prev.
Proof.
  intros Hp Hall. pose proof Hp as Hp'. apply Forall_cons in Hp' as [Hx Hl].
  assert (Hps : parse (sortDesc (Some l))).
  { unfold datesParse, sortByCreatedDesc. by rewrite arraySort_perm. }
  assert (Hid : sortDesc (Some (sortDesc (Some l))) = sortDesc (Some l)).
  { apply arraySort_sorted_id; [done|]. by apply arraySort_descending. }
  split; [done|].
  assert (Hall' : Forall (λ y, newestFirst x y) (sortDesc (Some l))).
  { unfold sortByCreatedDesc. by rewrite arraySort_perm. }
  set (sl := sortDesc (Some l)) in *.
  change (insertSorted T cmp x (sortDesc (Some sl)) = x :: sl).
  rewrite Hid. apply insertSorted_newest; [by constructor|done].
Qed.

End SortFacts.

Lemma sortByCreatedDesc_newest_first_witness :
  StronglySorted (newestFirst sampleTime Task task_createdAt task_created_at)
    (sortByCreatedDesc sampleTime Task task_createdAt task_created_at
       (Some [sampleTask "a" "xx"; sampleTask "b" "xxxx";
              sampleTask "c" "xx"])).
Proof.
  apply sortByCreatedDesc_newest_first. by repeat constructor.
Defined.

Lemma sortByCreatedDesc_stable_witness :
  filter (λ a, stamp sampleTime Task task_createdAt task_created_at a = 2%Z)
    (sortByCreatedDesc sampleTime Task task_createdAt task_created_at
       (Some [sampleTask "a" "xx"; sampleTask "b" "xxxx";
              sampleTask "c" "xx"])) =
  [sampleTask "a" "xx"; sampleTask "c" "xx"].
Proof.
  rewrite sortByCreatedDesc_stable; [done|]. by repeat constructor.
Defined.

Lemma sortByCreatedDesc_prepend_witness :
  sortByCreatedDesc sampleTime Task task_createdAt task_created_at
    (Some (sampleTask "n" "xxxxx" ::
           sortByCreatedDesc sampleTime Task task_createdAt task_created_at
             (Some [sampleTask "a" "xx"; sampleTask "b" "xxxx"]))) =
  [sampleTask "n" "xxxxx"; sampleTask "b" "xxxx"; sampleTask "a" "xx"].
Proof.
  refine (proj2 (sortByCreatedDesc_prepend sampleTime Task task_createdAt
    task_created_at (sampleTask "n" "xxxxx")
    [sampleTask "a" "xx"; sampleTask "b" "xxxx"] _ _)).
  - by repeat constructor.
  - repeat constructor; by vm_compute.
Defined.

(** ** The interceptors of [src/lib/api.ts] *)

(** X11: the request interceptor keeps the url and every header other
    than [Authorization]; with a token in the storage it sets
    [Authorization] to [Bearer] and the token, over whatever the caller
    put there; with no token, or an empty one, it returns the
    configuration as it is; applying it twice is the same as once. *)
Theorem requestInterceptor_headers (storage : gmap string string)
    (config : RequestConfig) :
  config_url (requestInterceptor storage config) = config_url config ∧
  (∀ k, k ≠ "Authorization" →
     default ∅ (config_headers (requestInterceptor storage config)) !! k =
     default ∅ (config_headers config) !! k) ∧
  (∀ t, storage !! "token" = Some t → t ≠ "" →
     default ∅ (config_headers (requestInterceptor storage config))
       !! "Authorization" = Some ("Bearer " +:+ t)) ∧
  (truthyString (storage !! "token") = false →
     requestInterceptor storage config = config) ∧
  requestInterceptor storage (requestInterceptor storage config) =
    requestInterceptor storage config.
Proof.
  unfold requestInterceptor.
  destruct (storage !! "token") as [t|] eqn:Ht; simpl;
    [destruct (String.eqb_spec t "") as [->|Hne]; simpl|].
  - repeat split; try done. by intros t' [= <-] Hne.
  - split; [done|]. split; [|split; [|split; [done|]]].
    + intros k Hk. by rewrite lookup_insert_ne.
    + intros t' [= <-] _. by rewrite lookup_insert_eq.
    + by rewrite insert_insert_eq.
  - by repeat split.
Qed.

(** X12: the error handler of the response interceptor always rejects
    with the error it was given and touches no key of the storage other
    than [token]; on a 401 the token is gone, so that the request
    interceptor then returns every configuration as it is; on any other
    error the storage is as before. *)
Theorem responseErrorInterceptor_401 (err : AxiosError)
    (storage : gmap string string) :
  (responseErrorInterceptor err storage).2 = err ∧
  (∀ k, k ≠ "token" →
     (responseErrorInterceptor err storage).1 !! k = storage !! k) ∧
  (err_status err = Some 401%Z →
     (responseErrorInterceptor err storage).1 !! "token" = None ∧
     ∀ config,
       requestInterceptor (responseErrorInterceptor err storage).1 config =
       config) ∧
  (err_status err ≠ Some 401%Z →
     (responseErrorInterceptor err storage).1 = storage).
Proof.
  unfold responseErrorInterceptor. simpl. split; [done|].
  case_decide as H401; (split; [|split]); try done.
  - intros k Hk. by rewrite lookup_delete_ne.
  - intros _. split; [by rewrite lookup_delete_eq|].
    intros config. unfold requestInterceptor. by rewrite lookup_delete_eq.
Qed.

Lemma requestInterceptor_headers_witness :
  default ∅ (config_headers
    (requestInterceptor {["token" := "abc"]}
       {| config_url := "/tasks"; config_headers := None |}))
    !! "Authorization" = Some "Bearer abc".
Proof.
  refine (proj1 (proj2 (proj2 (requestInterceptor_headers
    {["token" := "abc"]}
    {| config_url := "/tasks"; config_headers := None |}))) "abc" _ _);
    done.
Defined.

Lemma responseErrorInterceptor_401_witness :
  (responseErrorInterceptor
     {| err_status := Some 401%Z; err_message := None |}
     {["token" := "abc"]}).1 !! "token" = None.
Proof.
  exact (proj1 (proj1 (proj2 (proj2 (responseErrorInterceptor_401
    {| err_status := Some 401%Z; err_message := None |}
    {["token" := "abc"]}))) eq_refl)).
Defined.

(** ** Handlers that ask for a confirmation *)

Section DeleteTaskFacts.

Variable V : Variant.

Lemma deleteTask_resume_ok (idTask gid : string) (res : ApiOutcome)
    (pg : TasksPage) :
  ∃ payload,
    page_alerts (deleteTask_resume V idTask true res gid pg) =
      (showToast V gid payload (page_alerts pg)).2 ∧
    page_deletes (deleteTask_resume V idTask true res gid pg) =
      page_deletes pg ++ ["/tasks/" +:+ idTask] ∧
    page_tasks (deleteTask_resume V idTask true res gid pg) =
      match res with
      | ApiOk => filter (λ t, taskKey t ≠ idTask) (page_tasks pg)
      | ApiFail _ => page_tasks pg
      end.
Proof. destruct res; by eexists. Qed.

(** X13: [deleteTask] sends nothing and changes no task before the user
    has answered.  After the click it resumes with the value of the
    button.  On cancel it sends no request and leaves the tasks and the
    toasts as they are.  On ok it sends one [delete] for the task; if the
    request succeeds the tasks with that key, and only they, leave the
    list, and if it fails the list is as before; in both cases one toast
    is posted. *)
Theorem deleteTask_gated (gid idTask gidT : string) (v : bool)
    (res : ApiOutcome) (pg : TasksPage) :
  let p := (deleteTask_begin gid pg).1 in
  let pg1 := (deleteTask_begin gid pg).2 in
  (page_tasks pg1 = page_tasks pg ∧ page_deletes pg1 = page_deletes pg ∧
   toasts (page_alerts pg1) = toasts (page_alerts pg) ∧
   promises (page_alerts pg1) !! p = Some None) ∧
  ∃ pg2,
    deleteTask_afterClick V p idTask v res gidT pg1 = Some pg2 ∧
    confirmModal (page_alerts pg2) = None ∧
    promises (page_alerts pg2) !! p = Some (Some v) ∧
    (v = false →
       page_tasks pg2 = page_tasks pg ∧ page_deletes pg2 = page_deletes pg ∧
       toasts (page_alerts pg2) = toasts (page_alerts pg)) ∧
    (v = true →
       page_deletes pg2 = page_deletes pg ++ ["/tasks/" +:+ idTask] ∧
       (∃ item, toasts (page_alerts pg2) = item :: toasts (page_alerts pg) ∧
                toast_id item = gidT) ∧
       match res with
       | ApiOk =>
           page_tasks pg2 = filter (λ t, taskKey t ≠ idTask) (page_tasks pg) ∧
           (idTask ∉ taskKey <$> page_tasks pg2) ∧
           (∀ t, t ∈ page_tasks pg → taskKey t ≠ idTask → t ∈ page_tasks pg2)
       | ApiFail _ => page_tasks pg2 = page_tasks pg
       end).
Proof.
  intros p pg1. set (st := page_alerts pg).
  assert (Hp1 : promises (page_alerts pg1) !! p = Some None)
    by apply (confirm_pending gid deleteTaskOpts st).
  split; [done|].
  destruct (click_settles v (page_alerts pg1) _
              (confirm_slot gid deleteTaskOpts st) Hp1) as (Hps & _ & Hnone).
  simpl confirm_resolve in Hps. change (length (promises st)) with p in Hps.
  assert (Hp2 : promises (clickConfirmButton v (page_alerts pg1)) !! p =
                Some (Some v)).
  { rewrite Hps. apply list_lookup_insert_eq. by apply lookup_lt_Some in Hp1. }
  destruct (click_registry v (page_alerts pg1)) as (Hts & _).
  change (toasts (page_alerts pg1)) with (toasts st) in Hts.
  unfold deleteTask_afterClick. rewrite Hp2.
  set (pgc := {| page_tasks := page_tasks pg1;
                 page_alerts := clickConfirmButton v (page_alerts pg1);
                 page_deletes := page_deletes pg1 |}).
  eexists. split; [done|]. destruct v.
  - destruct (deleteTask_resume_ok idTask gidT res pgc)
      as (payload & Ha & Hd & Ht).
    rewrite Ha, Hd, Ht.
    destruct (showToast_broker V gidT payload (page_alerts pgc))
      as (-> & -> & _).
    rewrite showToast_toasts.
    split; [done|]. split; [done|]. split; [done|]. intros _.
    split; [done|]. split; [eexists; split; [by rewrite <- Hts|done]|].
    destruct res as [|err]; [|done]. split; [done|]. split.
    + rewrite list_elem_of_fmap. intros (t & Heq & Hin).
      apply list_elem_of_filter in Hin as [Hne _]. by apply Hne.
    + intros t Hin Hne. by apply list_elem_of_filter.
  - split; [done|]. split; [done|]. split; [by intros _|done].
Qed.

End DeleteTaskFacts.

Lemma deleteTask_gated_witness :
  let pg := {| page_tasks := [sampleTask "t1" "xx"; sampleTask "t2" "xxx"];
               page_alerts := initialState; page_deletes := [] |} in
  ∃ pg2,
    deleteTask_afterClick part_001 0 "t1" false ApiOk "k"
      (deleteTask_begin "c" pg).2 = Some pg2 ∧
    page_tasks pg2 = page_tasks pg ∧ page_deletes pg2 = [] ∧
    toasts (page_alerts pg2) = [].
Proof.
  intros pg.
  destruct (deleteTask_gated part_001 "c" "t1" "k" false ApiOk pg)
    as (_ & pg2 & Heq & _ & _ & Hcancel & _).
  exists pg2. split; [exact Heq|]. exact (Hcancel eq_refl).
Defined.

(** ** More on the provider *)

Section ProviderFacts.

Variable V : Variant.

Lemma step_toasts_sublist ev st :
  toasts (step V ev st) `sublist_of` posted [ev] ++ toasts st.
Proof.
  destruct (dismissal ev) eqn:Hd; [|by rewrite step_toasts_quiet].
  destruct ev as [gid payload|id|gid opts|v|dt|i]; try done; unfold step.
  - apply sublist_filter.
  - destruct (fireTimer_toasts i st) as [->|(tm & _ & _ & ->)]; [done|].
    apply sublist_filter.
Qed.

Lemma step_timers_origin ev st tm :
  tm ∈ timers (step V ev st) →
  tm ∈ timers st ∨ timer_target tm ∈ toast_id <$> posted [ev].
Proof.
  destruct ev as [gid payload|id|gid opts|v|dt|i]; unfold step;
    try by left.
  - rewrite showToast_timers, elem_of_app. intros [Hin|Hin]; [by left|].
    right. simpl. apply list_elem_of_singleton.
    destruct (payload_timeout payload);
      [apply list_elem_of_singleton in Hin; by subst tm
      |by apply elem_of_nil in Hin
      |apply list_elem_of_singleton in Hin; by subst tm].
  - destruct (click_registry v st) as (_ & -> & _). by left.
  - intros Hin. left. by eapply fireTimer_timers.
Qed.

(** X14: whatever the events, the registry holds only toasts that were
    posted (or were there at the start), in the reverse of the order in
    which they were posted, and every timer of the timer table is aimed at
    the id of a posted toast (or was there at the start). *)
Theorem registry_from_posted (evs : list Event) (st : AlertsState) :
  toasts (run V evs st) `sublist_of` reverse (posted evs) ++ toasts st ∧
  ∀ tm, tm ∈ timers (run V evs st) →
        tm ∈ timers st ∨ timer_target tm ∈ toast_id <$> posted evs.
Proof.
  revert st. induction evs as [|ev evs IH]; intros st.
  { split; [done|]. by left. }
  destruct (IH (step V ev st)) as [IHt IHm]. split.
  - simpl run. etrans; [exact IHt|].
    rewrite (posted_cons ev evs), reverse_app, <- app_assoc.
    apply sublist_app; [done|].
    etrans; [apply step_toasts_sublist|].
    destruct ev; simpl; done.
  - intros tm Hin. simpl run in Hin.
    rewrite (posted_cons ev evs), fmap_app, elem_of_app.
    destruct (IHm tm Hin) as [Hold|Hnew]; [|by right; right].
    destruct (step_timers_origin ev st tm Hold); [by left|by right; left].
Qed.

(** X15: in every state the provider can reach, the resolver of a promise
    has been called at most once; a promise is settled to [v] exactly when
    its resolver has been called once, with [v]; and the request in the
    slot, if there is one, belongs to a promise that is still pending. *)
Theorem resolver_called_at_most_once (evs : list Event) (p : nat) :
  let st := run V evs initialState in
  length (callsFor p st) ≤ 1 ∧
  (∀ v, promises st !! p = Some (Some v) ↔ callsFor p st = [(p, v)]) ∧
  (∀ c, confirmModal st = Some c →
        promises st !! confirm_resolve c = Some None).
Proof.
  intros st.
  assert (Hinv : brokerInv st) by apply brokerInv_run, brokerInv_initial.
  split; [|split; [|by apply (inv_slot _ Hinv)]].
  - destruct (promises st !! p) as [[v|]|] eqn:Hp.
    + by rewrite (inv_settled _ Hinv p v Hp).
    + rewrite (inv_pending _ Hinv p Hp). simpl. lia.
    + rewrite callsFor_unallocated; [simpl; lia|done|].
      by apply lookup_ge_None.
  - intros v. split; [by apply (inv_settled _ Hinv)|].
    destruct (promises st !! p) as [[w|]|] eqn:Hp.
    + rewrite (inv_settled _ Hinv p w Hp). by intros [= ->].
    + by rewrite (inv_pending _ Hinv p Hp).
    + rewrite callsFor_unallocated; [done|done|]. by apply lookup_ge_None.
Qed.

End ProviderFacts.

Section Independence.

Variable V : Variant.

Lemma withBroker_self st :
  withBroker (confirmModal st) (promises st) (resolveCalls st) st = st.
Proof. by destruct st. Qed.

Lemma withRegistry_self st :
  withRegistry (toasts st) (timers st) (now st) st = st.
Proof. by destruct st. Qed.

Lemma step_registry_withBroker ev m ps rc st :
  brokerEvent ev = false →
  step V ev (withBroker m ps rc st) = withBroker m ps rc (step V ev st).
Proof.
  destruct ev as [gid payload|id|gid opts|v|dt|i]; try done; intros _;
    unfold step.
  - unfold showToast. by destruct (payload_timeout payload).
  - unfold fireTimer. simpl timers. simpl now.
    destruct (timers st !! i); [|done]. by case_decide.
Qed.

Lemma step_broker_withBroker ev st :
  brokerEvent ev = true →
  ∃ m ps rc, step V ev st = withBroker m ps rc st.
Proof.
  destruct ev as [gid payload|id|gid opts|v|dt|i]; try done; intros _;
    unfold step.
  - by eexists _, _, _.
  - unfold clickConfirmButton. destruct (confirmModal st).
    + by eexists _, _, _.
    + exists (confirmModal st), (promises st), (resolveCalls st).
      by rewrite withBroker_self.
Qed.

Lemma step_broker_withRegistry ev ts tms t st :
  brokerEvent ev = true →
  step V ev (withRegistry ts tms t st) = withRegistry ts tms t (step V ev st).
Proof.
  destruct ev as [gid payload|id|gid opts|v|dt|i]; try done; intros _;
    unfold step.
  unfold clickConfirmButton. simpl confirmModal.
  by destruct (confirmModal st).
Qed.

Lemma step_registry_withRegistry ev st :
  brokerEvent ev = false →
  ∃ ts tms t, step V ev st = withRegistry ts tms t st.
Proof.
  destruct ev as [gid payload|id|gid opts|v|dt|i]; try done; intros _;
    unfold step.
  - unfold showToast. destruct (payload_timeout payload); by eexists _, _, _.
  - by eexists _, _, _.
  - by eexists _, _, _.
  - unfold fireTimer. destruct (timers st !! i).
    + case_decide; [by eexists _, _, _|].
      exists (toasts st), (timers st), (now st). by rewrite withRegistry_self.
    + exists (toasts st), (timers st), (now st). by rewrite withRegistry_self.
Qed.

Lemma run_registry_part evs m ps rc st :
  ∃ m' ps' rc',
    run V evs (withBroker m ps rc st) =
    withBroker m' ps' rc'
      (run V (filter (λ ev, brokerEvent ev = false) evs) st).
Proof.
  revert m ps rc st. induction evs as [|ev evs IH]; intros m ps rc st.
  { by eexists _, _, _. }
  destruct (brokerEvent ev) eqn:Hev.
  - rewrite filter_cons_False by by rewrite Hev.
    destruct (step_broker_withBroker ev (withBroker m ps rc st) Hev)
      as (m1 & ps1 & rc1 & Hstep).
    simpl run. rewrite Hstep. apply (IH m1 ps1 rc1 st).
  - rewrite filter_cons_True by done. simpl run.
    rewrite step_registry_withBroker by done. apply IH.
Qed.

Lemma run_broker_part evs ts tms t st :
  ∃ ts' tms' t',
    run V evs (withRegistry ts tms t st) =
    withRegistry ts' tms' t'
      (run V (filter (λ ev, brokerEvent ev = true) evs) st).
Proof.
  revert ts tms t st. induction evs as [|ev evs IH]; intros ts tms t st.
  { by eexists _, _, _. }
  destruct (brokerEvent ev) eqn:Hev.
  - rewrite filter_cons_True by done. simpl run.
    rewrite step_broker_withRegistry by done. apply IH.
  - rewrite filter_cons_False by by rewrite Hev.
    destruct (step_registry_withRegistry ev (withRegistry ts tms t st) Hev)
      as (ts1 & tms1 & t1 & Hstep).
    simpl run. rewrite Hstep. apply (IH ts1 tms1 t1 st).
Qed.

(** X17: the toast registry and the confirmation broker do not touch each
    other.  The registry, the timer table and the clock after a trace are
    what the trace without its [confirm] calls and clicks gives; the slot,
    the promises and the resolver calls are what the [confirm] calls and
    clicks alone give. *)
Theorem registry_broker_independent (evs : list Event) (st : AlertsState) :
  let reg := run V (filter (λ ev, brokerEvent ev = false) evs) st in
  let brk := run V (filter (λ ev, brokerEvent ev = true) evs) st in
  (toasts (run V evs st) = toasts reg ∧
   timers (run V evs st) = timers reg ∧
   now (run V evs st) = now reg) ∧
  (confirmModal (run V evs st) = confirmModal brk ∧
   promises (run V evs st) = promises brk ∧
   resolveCalls (run V evs st) = resolveCalls brk).
Proof.
  intros reg brk. split.
  - destruct (run_registry_part evs (confirmModal st) (promises st)
                (resolveCalls st) st) as (m & ps & rc & Heq).
    rewrite withBroker_self in Heq. by rewrite Heq.
  - destruct (run_broker_part evs (toasts st) (timers st) (now st) st)
      as (ts & tms & t & Heq).
    rewrite withRegistry_self in Heq. by rewrite Heq.
Qed.

(** X18: posting a toast and dismissing it leaves in the registry the
    toasts that were there, less those with the generated id; so it gives
    back the registry as it was exactly when no toast of the registry had
    that id.  The timer that the post registered stays in the timer
    table. *)
Theorem showToast_hideToast (gid : string) (payload : ToastPayload)
    (st : AlertsState) :
  toasts (hideToast gid (showToast V gid payload st).2) =
    filter (λ t, toast_id t ≠ gid) (toasts st) ∧
  (toasts (hideToast gid (showToast V gid payload st).2) = toasts st ↔
   gid ∉ toastIds st) ∧
  timers (hideToast gid (showToast V gid payload st).2) =
    timers (showToast V gid payload st).2 ∧
  (payload_timeout payload ≠ TimeoutNull →
   length (timers (hideToast gid (showToast V gid payload st).2)) =
     S (length (timers st))).
Proof.
  assert (Hts : toasts (hideToast gid (showToast V gid payload st).2) =
                filter (λ t, toast_id t ≠ gid) (toasts st)).
  { unfold hideToast, setToasts. cbn [toasts]. rewrite showToast_toasts.
    by rewrite filter_cons_False by (intros Hne; by apply Hne). }
  split; [done|]. split; [|split; [done|]].
  - rewrite Hts. split.
    + intros Heq. unfold toastIds. rewrite <- Heq.
      apply filter_other_id_gone.
    + apply filter_other_id_absent.
  - intros Hto. unfold hideToast, setToasts. cbn [timers].
    rewrite showToast_timers, length_app.
    destruct (payload_timeout payload); simpl; try done; lia.
Qed.

(** X19: two dismissals can be made in either order, and a dismissal can
    be moved across the post of a toast with another id. *)
Theorem hideToast_commutes (a b : string) (payload : ToastPayload)
    (st : AlertsState) :
  hideToast a (hideToast b st) = hideToast b (hideToast a st) ∧
  (a ≠ b →
   hideToast a (showToast V b payload st).2 =
   (showToast V b payload (hideToast a st)).2).
Proof.
  split.
  - unfold hideToast, setToasts. simpl. f_equal.
    rewrite !list_filter_filter. apply list_filter_iff.
    intros x. split; intros [? ?]; by split.
  - intros Hne. unfold showToast, hideToast.
    destruct (payload_timeout payload); unfold setTimeout, setToasts; simpl;
      rewrite filter_cons_True by (simpl; congruence); done.
Qed.

(** X20: a toast posted with a timeout of its own, a whole number of
    milliseconds that fits the signed 32-bit integer in which the platform
    keeps a delay, gets one timer with that delay, in either copy of the
    provider, and as long as that delay has not elapsed it is in the
    registry, whatever else happens, provided no other call uses its
    id. *)
Theorem showToast_explicit_timeout (gid : string) (payload : ToastPayload)
    (ms : Z) (st : AlertsState) :
  payload_timeout payload = TimeoutMs ms →
  (-2147483648 ≤ ms ≤ 2147483647)%Z →
  timers (showToast V gid payload st).2 =
    timers st ++ [{| timer_delay := ms; timer_due := now st + Z.max 0 ms;
                     timer_target := gid |}] ∧
  ∀ evs,
    gid ∉ timer_target <$> timers st →
    Forall (λ ev, usesId gid ev = false) evs →
    (now (run V evs (showToast V gid payload st).2) < now st + ms)%Z →
    mkItem gid payload ∈ toasts (run V evs (showToast V gid payload st).2).
Proof.
  intros Hto _. split; [by rewrite showToast_timers, Hto|].
  intros evs Hfresh Hevs Hlt.
  apply (run_keeps_toast V (mkItem gid payload) (now st + ms)%Z); try done.
  - intros tm. rewrite showToast_timers, Hto, elem_of_app.
    intros [Hold|Hnew] Ht.
    + exfalso. apply Hfresh. apply list_elem_of_fmap. by exists tm.
    + apply list_elem_of_singleton in Hnew. subst tm. simpl. lia.
  - intros _. rewrite showToast_toasts. by left.
Qed.

End Independence.

Lemma showToast_hideToast_witness :
  toasts (hideToast "b"
    (showToast part_000 "b" samplePayload
       (showToast part_000 "a" stickyPayload initialState).2).2) =
  [mkItem "a" stickyPayload].
Proof.
  refine (proj2 (proj1 (proj2 (showToast_hideToast part_000 "b" samplePayload
    (showToast part_000 "a" stickyPayload initialState).2))) _).
  apply (bool_decide_unpack _). by vm_compute.
Defined.

Lemma hideToast_commutes_witness :
  hideToast "a" (showToast part_001 "b" samplePayload initialState).2 =
  (showToast part_001 "b" samplePayload (hideToast "a" initialState)).2.
Proof.
  exact (proj2 (hideToast_commutes part_001 "a" "b" samplePayload
    initialState) ltac:(done)).
Defined.

Lemma showToast_explicit_timeout_witness :
  mkItem "a" welcomePayload ∈
  toasts (run part_001 [EvTick 1999; EvFire 0]
    (showToast part_001 "a" welcomePayload initialState).2).
Proof.
  refine (proj2 (showToast_explicit_timeout part_001 "a" welcomePayload 2000
    initialState eq_refl ltac:(lia)) _ _ _ _).
  - apply (bool_decide_unpack _). by vm_compute.
  - by repeat constructor.
  - by vm_compute.
Defined.

(** ** Routes and sessions *)

(** X21: every path renders a page after at most one redirection.  With a
    token in the storage the login and register paths lead to the
    dashboard and the protected paths to their pages; without one, or
    with an empty one, the protected paths lead to the login page. *)
Theorem renderPath_one_redirect (storage : gmap string string) (path : Path) :
  renderPath 1 storage path =
  Some (if truthyString (storage !! "token") then
          match path with
          | PathGroup id => GroupPageOf id
          | _ => DashboardPage
          end
        else
          match path with
          | PathRegister => RegisterPage
          | _ => LoginPage
          end).
Proof.
  unfold renderPath, routeElement, PrivateRoute.
  destruct path; destruct (truthyString (storage !! "token")) eqn:Ht;
    simpl; rewrite ?Ht; done.
Qed.

(** X22: after a login whose response carries a token, as [token] or,
    when that is [null] or absent, as [accessToken], the token is in the
    storage and in the default [Authorization] header, the other keys of
    the storage are as before, the handler goes to the dashboard, the
    dashboard renders, and the request interceptor sends the token. *)
Theorem loginSubmit_with_token (tok accessTok : option string) (t : string)
    (sess : Session) :
  nullishOr tok accessTok = Some t → t ≠ "" →
  let r := loginSubmit (LoginOk tok accessTok) sess in
  let storage' := session_storage (login_session r) in
  storage' !! "token" = Some t ∧
  (∀ k, k ≠ "token" → storage' !! k = session_storage sess !! k) ∧
  default ∅ (session_common (login_session r)) !! "Authorization" =
    Some ("Bearer " +:+ t) ∧
  login_nav r = Some PathDashboard ∧
  renderPath 1 storage' PathDashboard = Some DashboardPage ∧
  ∀ config,
    default ∅ (config_headers (requestInterceptor storage' config))
      !! "Authorization" = Some ("Bearer " +:+ t).
Proof.
  intros Htok Hne r storage'.
  assert (Htruthy : truthyString (Some t) = true).
  { simpl. by destruct (String.eqb_spec t ""). }
  assert (Hs : storage' = <["token" := t]> (session_storage sess)).
  { unfold storage', r, loginSubmit. by rewrite Htok, Htruthy. }
  assert (Hget : storage' !! "token" = Some t).
  { rewrite Hs. by rewrite lookup_insert_eq. }
  split; [done|]. split; [|split; [|split; [done|split]]].
  - intros k Hk. rewrite Hs. by rewrite lookup_insert_ne.
  - unfold r, loginSubmit. rewrite Htok, Htruthy. simpl.
    by rewrite lookup_insert_eq.
  - unfold renderPath, routeElement, PrivateRoute. by rewrite Hget, Htruthy.
  - intros config. unfold requestInterceptor. rewrite Hget, Htruthy. simpl.
    by rewrite lookup_insert_eq.
Qed.

(** X23: a login whose response carries no usable token (none, or an
    empty one) leaves the session as it is and still shows the welcome
    toast and goes to the dashboard, which then renders the login page
    when no token was stored before.  A login that fails goes nowhere and
    shows the message of the server, or "Impossible de se connecter" when
    there is none; it leaves the default headers and every key of the
    storage other than [token] as they are; when the error is a 401 the
    response interceptor has removed the token, so that the dashboard then
    leads to the login page, and on any other error the session is as
    before. *)
Theorem loginSubmit_without_token (tok accessTok : option string)
    (err : AxiosError) (sess : Session) :
  (truthyString (nullishOr tok accessTok) = false →
   login_session (loginSubmit (LoginOk tok accessTok) sess) = sess ∧
   login_toast (loginSubmit (LoginOk tok accessTok) sess) = welcomePayload ∧
   login_nav (loginSubmit (LoginOk tok accessTok) sess) = Some PathDashboard ∧
   (truthyString (session_storage sess !! "token") = false →
    renderPath 1 (session_storage sess) PathDashboard = Some LoginPage)) ∧
  let sess' := login_session (loginSubmit (LoginFail err) sess) in
  login_nav (loginSubmit (LoginFail err) sess) = None ∧
  payload_message (login_toast (loginSubmit (LoginFail err) sess)) =
    match err_message err with
    | Some m => if String.eqb m "" then "Impossible de se connecter" else m
    | None => "Impossible de se connecter"
    end ∧
  session_common sess' = session_common sess ∧
  (∀ k, k ≠ "token" →
        session_storage sess' !! k = session_storage sess !! k) ∧
  (err_status err = Some 401%Z →
   session_storage sess' !! "token" = None ∧
   renderPath 1 (session_storage sess') PathDashboard = Some LoginPage) ∧
  (err_status err ≠ Some 401%Z → sess' = sess).
Proof.
  split.
  - intros Hno. unfold loginSubmit. rewrite Hno. simpl.
    split; [done|]. split; [done|]. split; [done|].
    intros Hst. unfold renderPath, routeElement, PrivateRoute.
    by rewrite Hst.
  - intros sess'. split; [done|]. split; [|split; [done|]].
    { unfold loginSubmit, messageOr. simpl.
      destruct (err_message err) as [m|]; simpl; [|done].
      by destruct (String.eqb m ""). }
    unfold sess', loginSubmit, responseErrorInterceptor. simpl.
    case_decide as H401; (split; [|split]); try done.
    + intros k Hk. by rewrite lookup_delete_ne.
    + intros _. assert (Hget :
        delete "token" (session_storage sess) !! "token" = None)
        by apply lookup_delete_eq.
      split; [done|]. unfold renderPath, routeElement, PrivateRoute.
      by rewrite Hget.
    + intros _. by destruct sess.
Qed.

(** X24: after a logout no protected page renders any more: every path
    leads to the login page or the register page; the request interceptor
    adds no header; the other keys of the storage are as before; the
    default headers of the client are not touched, so an [Authorization]
    header set there at login is still there. *)
Theorem handleLogout_session (sess : Session) (path : Path) :
  let sess' := (handleLogout sess).1 in
  (handleLogout sess).2 = PathHome ∧
  renderPath 1 (session_storage sess') path =
    Some (match path with PathRegister => RegisterPage | _ => LoginPage end) ∧
  (∀ config, requestInterceptor (session_storage sess') config = config) ∧
  (∀ k, k ≠ "token" →
        session_storage sess' !! k = session_storage sess !! k) ∧
  session_common sess' = session_common sess.
Proof.
  intros sess'.
  assert (Hget : session_storage sess' !! "token" = None)
    by apply lookup_delete_eq.
  split; [done|]. split; [|split; [|split; [|done]]].
  - unfold renderPath, routeElement, PrivateRoute. rewrite Hget.
    by destruct path.
  - intros config. unfold requestInterceptor. by rewrite Hget.
  - intros k Hk. by apply lookup_delete_ne.
Qed.

Lemma loginSubmit_with_token_witness :
  session_storage (login_session
    (loginSubmit (LoginOk None (Some "jwt"))
       {| session_storage := ∅; session_common := None |})) !! "token" =
  Some "jwt".
Proof.
  exact (proj1 (loginSubmit_with_token None (Some "jwt") "jwt"
    {| session_storage := ∅; session_common := None |} eq_refl ltac:(done))).
Defined.

Lemma loginSubmit_without_token_witness :
  renderPath 1 ∅ PathDashboard = Some LoginPage ∧
  session_storage (login_session
    (loginSubmit (LoginFail {| err_status := Some 401%Z; err_message := None |})
       {| session_storage := {["token" := "old"]}; session_common := None |}))
    !! "token" = None.
Proof.
  split.
  - exact (proj2 (proj2 (proj2 (proj1 (loginSubmit_without_token None None
      {| err_status := None; err_message := None |}
      {| session_storage := ∅; session_common := None |}) eq_refl)))
      eq_refl).
  - destruct (loginSubmit_without_token None None
      {| err_status := Some 401%Z; err_message := None |}
      {| session_storage := {["token" := "old"]}; session_common := None |})
      as (_ & _ & _ & _ & _ & H401 & _).
    exact (proj1 (H401 eq_refl)).
Defined.
